(** * filecoin.storage: CAR validation, pin status and the upload handler

    A shallow embedding of the API package of the repository
    ([packages/api/src/car.js], [pins.js], [status.js],
    [utils/parse-cid.js]) with the properties the specification states
    about it.

    Conventions.
    - JavaScript numbers are modelled by [Z]: every number the modelled
      code computes is a byte length, a counter or a millisecond clock
      reading, all far below 2^53, where double arithmetic is exact.
    - A JavaScript [string] is a [string]; a [Uint8Array] is a
      [list byte]; an array is a [list]; an object used as a dictionary
      is an association list in insertion order.
    - A function that can throw returns [Res]; an [async] function that
      talks to a collaborator is a computation of the monad [M] below,
      which threads the log of the calls made so far. *)

From Stdlib Require Import ZArith List String Ascii Bool Lia.
From Stdlib.Strings Require Import Byte.
From Stdlib Require Import DecimalString.
Import ListNotations.
Local Open Scope string_scope.
Local Open Scope Z_scope.
Set Warnings "-register-all".

(* ================================================================== *)
(** * JavaScript values, exceptions and results *)
(* ================================================================== *)

(** What a [throw] carries. *)
Inductive Exn : Type :=
| JsError (message : string)          (* new Error(message) *)
| JsTypeError (message : string)      (* raised by the runtime *)
| InvalidCidError (cid : string)      (* errors.js *)
| Rejected (reason : string).         (* a collaborator's call failed *)

(** The result of running a piece of code: a value or an exception. *)
Inductive Res (A : Type) : Type :=
| Ok (a : A)
| Throw (e : Exn).
Arguments Ok {A} a.
Arguments Throw {A} e.

Definition res_bind {A B} (r : Res A) (k : A -> Res B) : Res B :=
  match r with
  | Ok a => k a
  | Throw e => Throw e
  end.

(** The values a request parameter or a JSON body can hold. *)
Inductive JsVal : Type :=
| JUndefined
| JNull
| JBool (b : bool)
| JNum (n : Z)
| JStr (s : string)
| JArr (items : list JsVal)
| JObj (props : list (string * JsVal)).

(** [!!v]. *)
Definition truthy (v : JsVal) : bool :=
  match v with
  | JUndefined | JNull => false
  | JBool b => b
  | JNum n => negb (n =? 0)
  | JStr s => negb (String.eqb s "")
  | JArr _ | JObj _ => true
  end.

(** [typeof v]. *)
Definition typeof (v : JsVal) : string :=
  match v with
  | JUndefined => "undefined"
  | JNull => "object"
  | JBool _ => "boolean"
  | JNum _ => "number"
  | JStr _ => "string"
  | JArr _ | JObj _ => "object"
  end.

(** [Array.isArray(v)]. *)
Definition isArray (v : JsVal) : bool :=
  match v with JArr _ => true | _ => false end.

(** [options.includes(v)] for an array [options] of string literals:
    only a string can be the same value as one of them. *)
Definition includes (options : list string) (v : JsVal) : bool :=
  match v with
  | JStr s => existsb (String.eqb s) options
  | _ => false
  end.

(** [v.every(p)]: defined on arrays only; on any other value the
    property [every] is undefined and the call throws. *)
Definition every (v : JsVal) (p : JsVal -> bool) : Res bool :=
  match v with
  | JArr items => Ok (forallb p items)
  | _ => Throw (JsTypeError "status.every is not a function")
  end.

(** Decimal rendering of a number inside a template literal. *)
Definition showZ (n : Z) : string := NilZero.string_of_int (Z.to_int n).

(* ================================================================== *)
(** * pins.js: the pin status aggregator *)
(* ================================================================== *)

(** [PinItemOutput] of the db client: the fields the API reads. *)
Record PinLocation : Type := mkLocation {
  peerId : string;
  peerName : string
}.

Record Pin : Type := mkPin {
  pin_status : string;
  pin_location : PinLocation
}.

(** [pinStatuses.includes(s)] on an array of strings. *)
Definition str_includes (l : list string) (s : string) : bool :=
  existsb (String.eqb s) l.

Definition getPinningAPIStatus (pins : list Pin) : string :=
  let pinStatuses := map pin_status pins in
  if str_includes pinStatuses "Pinned" then "pinned"
  else if str_includes pinStatuses "Pinning" then "pinning"
  else if str_includes pinStatuses "PinQueued"
          || str_includes pinStatuses "Remote" then "queued"
  else if (Z.of_nat (List.length pinStatuses) =? 0) then "queued"
  else "failed".

(** The constants of pins.js.  Two of the messages contain double
    quotes, written here with the character [dq]. *)
Definition dq : string := String "034"%char EmptyString.
Definition quoted (s : string) : string := dq ++ s ++ dq.

Definition ERROR_CODE : Z := 400.
Definition ERROR_STATUS : string := "INVALID_PIN_DATA".
Definition INVALID_CID : string := "Invalid cid".
Definition INVALID_MATCH : string :=
  "Match should be a string (i.e. " ++ quoted "exact" ++ ", "
  ++ quoted "iexact" ++ ", " ++ quoted "partial" ++ ", "
  ++ quoted "ipartial" ++ ")".
Definition INVALID_NAME : string := "Name should be a string".
Definition INVALID_STATUS : string := "Status should be an array of strings".
Definition UNPERMITTED_MATCH : string :=
  "Match should be " ++ quoted "exact" ++ ", " ++ quoted "iexact" ++ ", "
  ++ quoted "partial" ++ ", or " ++ quoted "ipartial".
Definition UNPERMITTED_STATUS : string :=
  "Status should be " ++ quoted "queued" ++ ", " ++ quoted "pinning" ++ ", "
  ++ quoted "pinned" ++ ", or " ++ quoted "failed".

Definition MATCH_OPTIONS : list string :=
  ["exact"; "iexact"; "partial"; "ipartial"].
Definition STATUS_OPTIONS : list string :=
  ["queued"; "pinning"; "pinned"; "failed"].

(** A response of the API.  [JSONResponse] and [notFound] come from
    utils/json-response.js: the first carries a JSON body and an HTTP
    status (200 unless given), the second is the not-found response. *)
Inductive Response : Type :=
| JSONResponse (body : JsVal) (status : Z)
| notFound.

(** [{ error: { reason, details } }], the [PinDataError] payload. *)
Definition PinDataError (reason details : string) : JsVal :=
  JObj [("error", JObj [("reason", JStr reason); ("details", JStr details)])].

Definition errorResponse (details : string) : Response :=
  JSONResponse (PinDataError ERROR_STATUS details) ERROR_CODE.

(** [request.params] of the pin listing route. *)
Record PinsParams : Type := mkPinsParams {
  param_cid : JsVal;
  param_name : JsVal;
  param_match : JsVal;
  param_status : JsVal
}.

Section PinsGet.

(** [normalizeCid] of utils/normalize-cid.js: returns the normalized
    identifier or throws. *)
Variable normalizeCid : JsVal -> Res string.

(** The [try { normalizeCid(cid) } catch (err) { return ... }] block:
    [Some r] when the handler returns [r] from inside the [catch]. *)
Definition cidCheck (cid : JsVal) : Res (option Response) :=
  if truthy cid then
    match normalizeCid cid with
    | Ok _ => Ok None
    | Throw _ => Ok (Some (errorResponse INVALID_CID))
    end
  else Ok None.

Definition pinsGet (params : PinsParams) : Res Response :=
  let cid := param_cid params in
  let name := param_name params in
  let match_ := param_match params in
  let status := param_status params in
  res_bind (cidCheck cid) (fun early =>
  match early with
  | Some r => Ok r
  | None =>
    if truthy name && negb (String.eqb (typeof name) "string") then
      Ok (errorResponse INVALID_NAME)
    else if truthy match_ && negb (String.eqb (typeof match_) "string") then
      if negb (includes MATCH_OPTIONS match_) then
        Ok (errorResponse UNPERMITTED_MATCH)
      else
        Ok (errorResponse INVALID_MATCH)
    else if truthy status && negb (isArray status) then
      res_bind (every status (includes STATUS_OPTIONS)) (fun isValidStatus =>
        if negb isValidStatus then
          Ok (errorResponse UNPERMITTED_STATUS)
        else
          Ok (errorResponse INVALID_STATUS))
    else
      Ok (JSONResponse (JStr "OK") 200)
  end).

End PinsGet.

(* ================================================================== *)
(** * Content identifiers and utils/parse-cid.js *)
(* ================================================================== *)

(** A content identifier as multiformats holds it: version, codec code
    and the bytes of the multihash. *)
Record CID : Type := mkCID {
  cid_version : Z;
  cid_code : Z;
  cid_multihash : list byte
}.

Definition bytes_eqb (a b : list byte) : bool :=
  if list_eq_dec Byte.byte_eq_dec a b then true else false.

(** [a.equals(b)]. *)
Definition CID_equals (a b : CID) : bool :=
  (cid_code a =? cid_code b) && (cid_version a =? cid_version b)
  && bytes_eqb (cid_multihash a) (cid_multihash b).

(** [c.toV1()]: a version-0 identifier is rebuilt as version 1 over the
    same codec and multihash, a version-1 identifier is returned as it
    is, any other version is refused. *)
Definition CID_toV1 (c : CID) : Res CID :=
  if cid_version c =? 0 then Ok (mkCID 1 (cid_code c) (cid_multihash c))
  else if cid_version c =? 1 then Ok c
  else Throw (JsError "Can not convert CID version to version 1").

(** The text side of the multiformats library, which the repository
    imports: [CID.parse] reads an identifier from its multibase text and
    throws on anything else, [toString] writes it. *)
Record Multiformats : Type := mkMultiformats {
  CID_parse : string -> Res CID;
  CID_toString : CID -> string
}.

(** What the library promises about the two: the version-1 text of an
    identifier that [CID.parse] produced parses back to that version-1
    identifier. *)
Definition parse_inverts_toString (L : Multiformats) : Prop :=
  forall x c c1,
    CID_parse L x = Ok c -> CID_toV1 c = Ok c1 ->
    CID_parse L (CID_toString L c1) = Ok c1.

(** [try { body } catch (err) { throw handler }]. *)
Definition try_rethrow {A} (body : Res A) (e : Exn) : Res A :=
  match body with
  | Ok a => Ok a
  | Throw _ => Throw e
  end.

Definition parseCid (L : Multiformats) (cid : string) : Res string :=
  try_rethrow
    (res_bind (CID_parse L cid) (fun c =>
     res_bind (CID_toV1 c) (fun c1 =>
     Ok (CID_toString L c1))))
    (InvalidCidError cid).

(* ================================================================== *)
(** * car.js: the CAR validator *)
(* ================================================================== *)

(** Modelled from the spec: [MAX_BLOCK_SIZE] is imported from
    constants.js, which is not part of the sources at hand; the spec and
    the comment above [carStat] both give it as 1 MiB. *)
Definition MAX_BLOCK_SIZE : Z := 1048576.

(** A block as [CarBlockIterator] yields it. *)
Record Block : Type := mkBlock {
  block_cid : CID;
  block_bytes : list byte
}.

(** [bytes.byteLength] and [bytes.length] of a [Uint8Array]. *)
Definition byteLength (bytes : list byte) : Z := Z.of_nat (List.length bytes).

(** A CAR upload: the size of the blob, and what [CarBlockIterator]
    reads from its bytes (the roots of the header, then the blocks in
    stream order). *)
Record Car : Type := mkCar {
  car_size : Z;
  car_roots : list CID;
  car_blocks : list Block
}.

(** A dag-pb node as @ipld/dag-pb decodes it; [Name] and [Tsize] of a
    link are optional. *)
Record PBLink : Type := mkPBLink {
  Hash : CID;
  Name : option string;
  Tsize : option Z
}.

Record PBNode : Type := mkPBNode {
  Data : option (list byte);
  Links : list PBLink
}.

(** A decoded block value.  Of a dag-cbor value the validator observes
    nothing but the identifiers it contains, so these stand for it. *)
Inductive Value : Type :=
| PbValue (node : PBNode)
| RawValue (bytes : list byte)
| CborValue (cids : list CID).

(** [Array.from(rootBlock.links())]: the identifiers inside the value;
    bytes contain none. *)
Definition links (v : Value) : list CID :=
  match v with
  | PbValue node => map Hash (Links node)
  | RawValue _ => []
  | CborValue cids => cids
  end.

(** A codec module: its code and its [decode]. *)
Record Codec : Type := mkCodec {
  code : Z;
  decode : list byte -> Res Value
}.

(** The decoders of @ipld/dag-pb and @ipld/dag-cbor, which the
    repository imports; both throw on bytes they cannot read. *)
Record Decoders : Type := mkDecoders {
  pb_decode : list byte -> Res PBNode;
  cbor_decode : list byte -> Res (list CID)
}.

Definition res_map {A B} (f : A -> B) (r : Res A) : Res B :=
  res_bind r (fun a => Ok (f a)).

Definition pb_code : Z := 112.    (* 0x70 *)
Definition raw_code : Z := 85.    (* 0x55 *)
Definition cbor_code : Z := 113.  (* 0x71 *)

Definition pb (D : Decoders) : Codec :=
  mkCodec pb_code (fun bytes => res_map PbValue (pb_decode D bytes)).
Definition raw : Codec :=
  mkCodec raw_code (fun bytes => Ok (RawValue bytes)).
Definition cbor (D : Decoders) : Codec :=
  mkCodec cbor_code (fun bytes => res_map CborValue (cbor_decode D bytes)).

Definition decoders (D : Decoders) : list Codec := [pb D; raw; cbor D].

(** [curr.Tsize || 0]. *)
Definition Tsize_or_0 (l : PBLink) : Z :=
  match Tsize l with
  | Some t => if t =? 0 then 0 else t
  | None => 0
  end.

Definition cumulativeSize (pbNodeBytes : list byte) (pbNode : PBNode) : Z :=
  byteLength pbNodeBytes
  + fold_left (fun acc curr => acc + Tsize_or_0 curr) (Links pbNode) 0.

Record CarStat : Type := mkCarStat {
  size : Z;
  blocks : Z
}.

(** The variables of the [for await] loop of [carStat]. *)
Record Scan : Type := mkScan {
  rawRootBlock : option Block;
  scan_blocks : Z;
  scan_size : Z
}.

Definition block_too_big (blockSize : Z) : Exn :=
  JsError ("block too big: " ++ showZ blockSize ++ " > " ++ showZ MAX_BLOCK_SIZE).

(** One round of the loop per block of the stream. *)
Fixpoint scanBlocks (rootCid : CID) (stream : list Block) (st : Scan)
  : Res Scan :=
  match stream with
  | [] => Ok st
  | block :: rest =>
    let blockSize := byteLength (block_bytes block) in
    if blockSize >? MAX_BLOCK_SIZE then Throw (block_too_big blockSize)
    else
      let root :=
        match rawRootBlock st with
        | None =>
          if CID_equals (block_cid block) rootCid then Some block else None
        | Some b => Some b
        end in
      scanBlocks rootCid rest
        (mkScan root (scan_blocks st + 1) (scan_size st + blockSize))
  end.

Definition carStat (D : Decoders) (car : Car) : Res CarStat :=
  let roots := car_roots car in
  match roots with
  | [] => Throw (JsError "missing roots")
  | rootCid :: _ =>
    if Z.of_nat (List.length roots) >? 1 then Throw (JsError "too many roots")
    else
      res_bind (scanBlocks rootCid (car_blocks car) (mkScan None 0 0))
      (fun st =>
      if scan_blocks st =? 0 then Throw (JsError "empty CAR")
      else
        match rawRootBlock st with
        | None => Throw (JsError "missing root block")
        | Some rawRoot =>
          match find (fun d => code d =? cid_code rootCid) (decoders D) with
          | Some decoder =>
            res_bind (decode decoder (block_bytes rawRoot)) (fun value =>
            if (scan_blocks st =? 1)
               && (Z.of_nat (List.length (links value)) >? 0) then
              Throw (JsError "CAR must contain at least one non-root block")
            else if cid_code rootCid =? pb_code then
              match value with
              | PbValue node =>
                Ok (mkCarStat (cumulativeSize (block_bytes rawRoot) node)
                              (scan_blocks st))
              | _ => Throw (JsTypeError "Cannot read properties of undefined")
              end
            else Ok (mkCarStat (scan_size st) (scan_blocks st)))
          | None => Ok (mkCarStat (scan_size st) (scan_blocks st))
          end
        end)
  end.

(* ================================================================== *)
(** * The collaborators and the monad of the handlers *)
(* ================================================================== *)

(** [peerMap] of a cluster status response, in the order
    [Object.entries] lists it. *)
Record PeerInfo : Type := mkPeerInfo {
  peer_peerName : string;
  peer_status : string
}.
Definition PeerMap : Type := list (string * PeerInfo).

(** [data] of the CreateUpload mutation. *)
Record UploadData : Type := mkUploadData {
  upload_user : string;
  upload_authToken : option string;
  upload_cid : string;
  upload_name : string;
  upload_type : string;
  upload_pins : list Pin;
  upload_dagSize : Z
}.

(** The three GraphQL documents of car.js with their variables. *)
Inductive Query : Type :=
| CREATE_UPLOAD (data : UploadData)
| CREATE_OR_UPDATE_PIN (content : string) (pin : Pin)
| INCREMENT_USER_USED_STORAGE (user : string) (amount : Z).

(** What the handlers read of a reply to [env.db.query]:
    [createUpload.content._id]. *)
Record QueryReply : Type := mkQueryReply {
  content_id : string
}.

(** Everything a handler does to the outside, in the order it does it. *)
Inductive Event : Type :=
| ClusterAdd (car : Car) (metadata_size : string) (local : bool)
| ClusterStatus (cid : string)
| DbQuery (q : Query)
| DbGetStatus (cid : string)
| SetTimeout (ms : Z)
| ConsoleLog (text : string)
| ConsoleError (err : Exn)
| Settled (outcome : Res unit).   (* a promise given to ctx.waitUntil settled *)

(** The state threaded through a handler: how often the clock was read
    and the events so far, oldest first. *)
Record World : Type := mkWorld {
  ticks : nat;
  trace : list Event
}.

(** The environment of a run.  A collaborator answers a call from the
    events that came before it; the clock gives its n-th reading. *)
Record Env : Type := mkEnv {
  Date_now : nat -> Z;
  toISOString : Z -> string;
  cluster_add : list Event -> Car -> Res string;
  cluster_status : list Event -> string -> Res PeerMap;
  db_query : list Event -> Query -> Res QueryReply;
  db_getStatus : list Event -> string -> Res (option (list (string * JsVal)));
  (* constants.js and utils/pin.js, not part of the sources at hand *)
  LOCAL_ADD_THRESHOLD : Z;
  toPinStatusEnum : string -> Res string
}.

(** An [async] function: from a world to its result and the world after
    it, or [None] when a loop in it has not finished within its fuel. *)
Definition M (A : Type) : Type := World -> option (Res A * World).

Definition ret {A} (a : A) : M A := fun w => Some (Ok a, w).
Definition throw {A} (e : Exn) : M A := fun w => Some (Throw e, w).
Definition lift {A} (r : Res A) : M A := fun w => Some (r, w).

Definition bind {A B} (m : M A) (k : A -> M B) : M B :=
  fun w =>
    match m w with
    | Some (Ok a, w1) => k a w1
    | Some (Throw e, w1) => Some (Throw e, w1)
    | None => None
    end.

Declare Scope js_scope.
Delimit Scope js_scope with js.
Notation "x <- m ;; k" := (bind m (fun x => k))
  (at level 100, m at next level, right associativity) : js_scope.
Notation "m ;;; k" := (bind m (fun _ => k))
  (at level 100, right associativity) : js_scope.
Local Open Scope js_scope.

(** [try { body } catch (err) { handler(err) }]. *)
Definition try_catch {A} (body : M A) (handler : Exn -> M A) : M A :=
  fun w =>
    match body w with
    | Some (Throw e, w1) => handler e w1
    | r => r
    end.

Definition emit (ev : Event) (w : World) : World :=
  mkWorld (ticks w) (trace w ++ [ev]).

(** A call to a collaborator: it answers from the events before the
    call, and the call is logged. *)
Definition call {A} (answer : list Event -> Res A) (ev : Event) : M A :=
  fun w => Some (answer (trace w), emit ev w).

Definition log (ev : Event) : M unit :=
  fun w => Some (Ok tt, emit ev w).

Section Handlers.

Variable E : Env.

(** [Date.now()], and the reading behind [new Date()]. *)
Definition now : M Z :=
  fun w => Some (Ok (Date_now E (ticks w)), mkWorld (S (ticks w)) (trace w)).

(** [await new Promise(resolve => setTimeout(resolve, ms))]. *)
Definition sleep (ms : Z) : M unit := log (SetTimeout ms).

Definition env_cluster_add (car : Car) (metadata_size : string)
           (local : bool) : M string :=
  call (fun tr => cluster_add E tr car) (ClusterAdd car metadata_size local).

Definition env_cluster_status (cid : string) : M PeerMap :=
  call (fun tr => cluster_status E tr cid) (ClusterStatus cid).

Definition env_db_query (q : Query) : M QueryReply :=
  call (fun tr => db_query E tr q) (DbQuery q).

Definition env_db_getStatus (cid : string)
  : M (option (list (string * JsVal))) :=
  call (fun tr => db_getStatus E tr cid) (DbGetStatus cid).

(** [toPins]: one pin per entry of the peer map. *)
Fixpoint toPins (peerMap : PeerMap) : Res (list Pin) :=
  match peerMap with
  | [] => Ok []
  | (peerId, info) :: rest =>
    res_bind (toPinStatusEnum E (peer_status info)) (fun status =>
    res_bind (toPins rest) (fun pins =>
    Ok (mkPin status (mkLocation peerId (peer_peerName info)) :: pins)))
  end.

End Handlers.

(* ================================================================== *)
(** * car.js: the upload handler *)
(* ================================================================== *)

(** Duration between status check polls in ms. *)
Definition PIN_STATUS_CHECK_INTERVAL : Z := 5000.
(** Max time in ms to spend polling for an OK status. *)
Definition MAX_PIN_STATUS_CHECK_TIME : Z := 30000.
(** Pin statuses considered OK. *)
Definition PIN_OK_STATUS : list string := ["Pinned"; "Pinning"; "PinQueued"].
(** Times to retry the transaction after the first failure. *)
Definition CREATE_UPLOAD_RETRIES : nat := 4.
(** Time in ms before starting the first retry. *)
Definition CREATE_UPLOAD_MAX_TIMEOUT : Z := 100.

Definition not_pinning : Exn := JsError "not pinning on any node".

(** [request.auth] and the one header the handler reads. *)
Record AuthenticatedRequest : Type := mkRequest {
  auth_user_id : string;
  auth_authToken_id : option string;     (* authToken?._id *)
  header_x_name : JsVal                  (* headers.get('x-name') *)
}.

(** Of [ctx] the handler asks only whether [waitUntil] is there. *)
Record Ctx : Type := mkCtx {
  has_waitUntil : bool
}.

Definition isOk (p : Pin) : bool := str_includes PIN_OK_STATUS (pin_status p).

(** [retry(fn, { retries, minTimeout })] of p-retry: [fn] is run again
    after a failure, at most [retries] more times, waiting
    [minTimeout * 2^attempt] before each new attempt; when every attempt
    failed the call fails too, here with the error of the last one. *)
Fixpoint retry {A} (fn : M A) (retries : nat) (timeout : Z) : M A :=
  fun w =>
    match fn w with
    | Some (Throw e, w1) =>
      match retries with
      | O => Some (Throw e, w1)
      | S n => retry fn n (2 * timeout) (emit (SetTimeout timeout) w1)
      end
    | r => r
    end.

(** [for (const pin of okPins) { await env.db.query(...) }]. *)
Fixpoint forEachM {A} (f : A -> M unit) (l : list A) : M unit :=
  match l with
  | [] => ret tt
  | a :: rest => f a ;;; forEachM f rest
  end.

(** [ctx.waitUntil(t())]: the task runs on its own; how it settles is
    logged and reaches nobody else.  The tasks of one request are run
    here one after the other, in the order [forEach] starts them. *)
Definition waitUntil (t : M unit) : M unit :=
  fun w =>
    match t w with
    | Some (r, w1) => Some (Ok tt, emit (Settled r) w1)
    | None => None
    end.

Section Upload.

Variable E : Env.
Variable D : Decoders.

(** The first task: add the DAG size to the user's used storage. *)
Definition incrementTask (user : string) (dagSize : Z) : M unit :=
  try_catch
    (env_db_query E (INCREMENT_USER_USED_STORAGE user dagSize) ;;; ret tt)
    (fun err => log (ConsoleError err)).

(** The [while] loop of the second task; [fuel] bounds the number of
    times its condition is evaluated. *)
Fixpoint pollLoop (fuel : nat) (cid content : string) (start : Z) : M unit :=
  match fuel with
  | O => fun _ => None
  | S fuel' =>
    t <- now E ;;
    if t - start >? MAX_PIN_STATUS_CHECK_TIME then
      sleep PIN_STATUS_CHECK_INTERVAL ;;;
      peerMap <- env_cluster_status E cid ;;
      pins <- lift (toPins E peerMap) ;;
      if Z.of_nat (List.length pins) =? 0 then throw not_pinning
      else
        let okPins := filter isOk pins in
        if Z.of_nat (List.length okPins) =? 0 then
          pollLoop fuel' cid content start
        else
          forEachM (fun pin =>
            env_db_query E (CREATE_OR_UPDATE_PIN content pin) ;;; ret tt)
            okPins
    else ret tt
  end.

(** The second task: poll the cluster for an OK pin. *)
Definition reconcileTask (fuel : nat) (cid content : string) : M unit :=
  start <- now E ;;
  pollLoop fuel cid content start.

Definition handleCarUpload (fuel : nat) (request : AuthenticatedRequest)
           (ctx : Ctx) (car : Car) (uploadType : string) : M Response :=
  stat <- lift (carStat D car) ;;
  let dagSize := size stat in
  cid <- env_cluster_add E car (showZ (car_size car))
           (car_size car >? LOCAL_ADD_THRESHOLD E) ;;
  peerMap <- env_cluster_status E cid ;;
  pins <- lift (toPins E peerMap) ;;
  if Z.of_nat (List.length pins) =? 0 then throw not_pinning
  else
    name <- match header_x_name request with
            | JStr s =>
              if String.eqb s "" then
                t <- now E ;; ret ("Upload at " ++ toISOString E t)
              else ret s
            | _ => t <- now E ;; ret ("Upload at " ++ toISOString E t)
            end ;;
    upload <- retry
                (env_db_query E (CREATE_UPLOAD
                   (mkUploadData (auth_user_id request)
                      (auth_authToken_id request) cid name uploadType
                      pins dagSize)))
                CREATE_UPLOAD_RETRIES CREATE_UPLOAD_MAX_TIMEOUT ;;
    let tasks :=
      incrementTask (auth_user_id request) dagSize
      :: (if negb (existsb isOk pins)
          then [reconcileTask fuel cid (content_id upload)]
          else []) in
    (if has_waitUntil ctx then forEachM waitUntil tasks else ret tt) ;;;
    ret (JSONResponse (JObj [("cid", JStr cid)]) 200).

End Upload.

(* ================================================================== *)
(** * status.js *)
(* ================================================================== *)

(** [res.cid = cid] on an object: the property is overwritten where it
    stands, or added at the end. *)
Fixpoint set_prop (props : list (string * JsVal)) (key : string) (v : JsVal)
  : list (string * JsVal) :=
  match props with
  | [] => [(key, v)]
  | (k, old) :: rest =>
    if String.eqb k key then (k, v) :: rest
    else (k, old) :: set_prop rest key v
  end.

(** [obj.key]. *)
Fixpoint get_prop (props : list (string * JsVal)) (key : string) : JsVal :=
  match props with
  | [] => JUndefined
  | (k, v) :: rest => if String.eqb k key then v else get_prop rest key
  end.

Section Status.

Variable E : Env.
Variable L : Multiformats.

Definition statusGet (param_cid : string) : M Response :=
  let cid := param_cid in
  normalizedCid <- lift (parseCid L cid) ;;
  log (ConsoleLog ("normalized " ++ normalizedCid)) ;;;
  res <- env_db_getStatus E normalizedCid ;;
  match res with
  | None => ret notFound
  | Some props => ret (JSONResponse (JObj (set_prop props "cid" (JStr cid))) 200)
  end.

End Status.

(* ================================================================== *)
(** * Properties of the pin status aggregator *)
(* ================================================================== *)

Lemma str_includes_In (l : list string) (s : string) :
  str_includes l s = true <-> In s l.
Proof.
  unfold str_includes. rewrite existsb_exists. split.
  - intros [x [Hin Heq]]. apply String.eqb_eq in Heq. now subst.
  - intros Hin. exists s. split; [assumption | apply String.eqb_refl].
Qed.

Lemma str_includes_not_In (l : list string) (s : string) :
  str_includes l s = false <-> ~ In s l.
Proof.
  rewrite <- str_includes_In. destruct (str_includes l s); split; congruence.
Qed.

Definition statuses (pins : list Pin) : list string := map pin_status pins.

Definition pinAt (status : string) : Pin := mkPin status (mkLocation "peer" "node").

(** C2, as the spec states rule 1: a replica reporting the sharded
    variant does not make the aggregate [pinned]. *)
Lemma aggregator_sharded_not_pinned :
  ~ (forall pins,
        In "Pinned" (statuses pins) \/ In "Sharded" (statuses pins) ->
        getPinningAPIStatus pins = "pinned").
Proof.
  intros H. specialize (H [pinAt "Sharded"]).
  assert (Hf : getPinningAPIStatus [pinAt "Sharded"] = "failed") by reflexivity.
  rewrite Hf in H. discriminate H. right. simpl. now left.
Qed.

(** C2, amended: the aggregator answers with one of the four statuses,
    by the precedence Pinned, then Pinning, then PinQueued or Remote,
    then the empty collection, then failed; only the status Pinned counts
    as pinned. *)
Theorem aggregator_precedence (pins : list Pin) :
  let ss := statuses pins in
  let r := getPinningAPIStatus pins in
  In r ["queued"; "pinning"; "pinned"; "failed"]
  /\ (In "Pinned" ss -> r = "pinned")
  /\ (~ In "Pinned" ss -> In "Pinning" ss -> r = "pinning")
  /\ (~ In "Pinned" ss -> ~ In "Pinning" ss ->
      In "PinQueued" ss \/ In "Remote" ss -> r = "queued")
  /\ (pins = [] -> r = "queued")
  /\ (~ In "Pinned" ss -> ~ In "Pinning" ss ->
      ~ In "PinQueued" ss -> ~ In "Remote" ss -> pins <> [] -> r = "failed").
Proof.
  cbv zeta. unfold getPinningAPIStatus, statuses.
  set (ss := map pin_status pins).
  destruct (str_includes ss "Pinned") eqn:HP;
    [apply str_includes_In in HP | apply str_includes_not_In in HP].
  { repeat split; simpl; intros; subst; simpl in *; tauto. }
  destruct (str_includes ss "Pinning") eqn:HG;
    [apply str_includes_In in HG | apply str_includes_not_In in HG].
  { repeat split; simpl; intros; subst; simpl in *; tauto. }
  destruct (str_includes ss "PinQueued") eqn:HQ;
    [apply str_includes_In in HQ | apply str_includes_not_In in HQ].
  { repeat split; simpl; intros; subst; simpl in *; tauto. }
  destruct (str_includes ss "Remote") eqn:HR;
    [apply str_includes_In in HR | apply str_includes_not_In in HR].
  { repeat split; simpl; intros; subst; simpl in *; tauto. }
  simpl orb.
  destruct pins as [|p pins'].
  - repeat split; simpl; intros; try tauto.
  - subst ss. simpl List.length.
    replace (Z.of_nat (S (List.length (map pin_status pins'))) =? 0) with false
      by (symmetry; apply Z.eqb_neq; lia).
    repeat split; simpl in *; intros; try tauto; try discriminate.
Qed.

(** Closes a goal [~ In s l] on a list of literals. *)
Ltac absent :=
  simpl; intros Habsent;
  repeat (destruct Habsent as [Habsent | Habsent]; [discriminate Habsent |]);
  exact Habsent.

(** The examples the spec lists, one per rule. *)
Lemma aggregator_precedence_witness :
  getPinningAPIStatus [] = "queued"
  /\ getPinningAPIStatus [pinAt "PinQueued"] = "queued"
  /\ getPinningAPIStatus [pinAt "Pinning"; pinAt "PinQueued"] = "pinning"
  /\ getPinningAPIStatus [pinAt "Pinned"; pinAt "Pinning"] = "pinned"
  /\ getPinningAPIStatus [pinAt "Remote"] = "queued"
  /\ getPinningAPIStatus [pinAt "SomeUnknownState"] = "failed".
Proof.
  refine (conj _ (conj _ (conj _ (conj _ (conj _ _))))).
  - destruct (aggregator_precedence []) as (_ & _ & _ & _ & He & _).
    apply He. reflexivity.
  - destruct (aggregator_precedence [pinAt "PinQueued"])
      as (_ & _ & _ & Hq & _ & _).
    apply Hq; [absent | absent | left; simpl; now left].
  - destruct (aggregator_precedence [pinAt "Pinning"; pinAt "PinQueued"])
      as (_ & _ & Hg & _ & _ & _).
    apply Hg; [absent | simpl; now left].
  - destruct (aggregator_precedence [pinAt "Pinned"; pinAt "Pinning"])
      as (_ & Hp & _ & _ & _ & _).
    apply Hp. simpl. now left.
  - destruct (aggregator_precedence [pinAt "Remote"])
      as (_ & _ & _ & Hq & _ & _).
    apply Hq; [absent | absent | right; simpl; now left].
  - destruct (aggregator_precedence [pinAt "SomeUnknownState"])
      as (_ & _ & _ & _ & _ & Hf).
    apply Hf; try absent. discriminate.
Defined.

(* ================================================================== *)
(** * Properties of the CAR validator *)
(* ================================================================== *)

Definition MissingRoot : Exn := JsError "missing roots".
Definition TooManyRoots : Exn := JsError "too many roots".
Definition IncompleteDag : Exn :=
  JsError "CAR must contain at least one non-root block".

(** A block the validator refuses for its size. *)
Definition oversize (b : Block) : Prop :=
  byteLength (block_bytes b) > MAX_BLOCK_SIZE.

(** The first block of the stream whose identifier equals the root. *)
Definition rootBlockOf (rootCid : CID) (stream : list Block) : option Block :=
  find (fun b => CID_equals (block_cid b) rootCid) stream.

(** The sum of the byte lengths of the blocks of a stream. *)
Definition rawSize (stream : list Block) : Z :=
  fold_right (fun b acc => byteLength (block_bytes b) + acc) 0 stream.



Lemma oversize_gtb (b : Block) :
  (byteLength (block_bytes b) >? MAX_BLOCK_SIZE) = true <-> oversize b.
Proof. unfold oversize. rewrite Z.gtb_lt. lia. Qed.

Lemma not_oversize_gtb (b : Block) :
  (byteLength (block_bytes b) >? MAX_BLOCK_SIZE) = false <-> ~ oversize b.
Proof.
  rewrite <- oversize_gtb.
  destruct (byteLength (block_bytes b) >? MAX_BLOCK_SIZE); split; congruence.
Qed.

(** A stream without oversize blocks is scanned to its end: every
    block is counted, every byte is added, and the root block kept is the
    one held before the scan or else the first one of the stream. *)
Lemma scanBlocks_fits (rootCid : CID) (stream : list Block) :
  Forall (fun b => ~ oversize b) stream ->
  forall st,
    scanBlocks rootCid stream st =
    Ok (mkScan
          (match rawRootBlock st with
           | Some b => Some b
           | None => rootBlockOf rootCid stream
           end)
          (scan_blocks st + Z.of_nat (List.length stream))
          (scan_size st + rawSize stream)).
Proof.
  induction 1 as [|b rest Hb _ IH]; intros st.
  - simpl. destruct st as [r n s]; simpl. destruct r; f_equal; f_equal; lia.
  - cbn [scanBlocks]. apply not_oversize_gtb in Hb. rewrite Hb.
    rewrite IH. cbn [rawRootBlock scan_blocks scan_size].
    f_equal. f_equal.
    + destruct (rawRootBlock st); [reflexivity|].
      unfold rootBlockOf. cbn [find].
      destruct (CID_equals (block_cid b) rootCid); reflexivity.
    + cbn [List.length]. lia.
    + cbn [rawSize fold_right]. fold (rawSize rest). lia.
Qed.

(** A stream with an oversize block is refused at the first of them,
    whatever stands before or after it. *)
Lemma scanBlocks_oversize (rootCid : CID) (stream : list Block) :
  Exists oversize stream ->
  forall st,
  exists pre b post,
    stream = (pre ++ b :: post)%list
    /\ Forall (fun b => ~ oversize b) pre
    /\ oversize b
    /\ scanBlocks rootCid stream st =
       Throw (block_too_big (byteLength (block_bytes b))).
Proof.
  induction stream as [|b rest IH]; intros Hex st.
  - inversion Hex.
  - cbn [scanBlocks].
    destruct (byteLength (block_bytes b) >? MAX_BLOCK_SIZE) eqn:Hb.
    + exists [], b, rest. apply oversize_gtb in Hb. repeat split; auto.
    + apply not_oversize_gtb in Hb.
      assert (Hrest : Exists oversize rest).
      { inversion Hex; subst; [contradiction | assumption]. }
      destruct (IH Hrest
        (mkScan
           match rawRootBlock st with
           | Some b0 => Some b0
           | None => if CID_equals (block_cid b) rootCid then Some b else None
           end (scan_blocks st + 1)
           (scan_size st + byteLength (block_bytes b))))
        as (pre & b' & post & Heq & Hpre & Hbig & Hscan).
      exists (b :: pre), b', post. subst rest. repeat split; auto.
Qed.

Lemma carStat_no_roots (D : Decoders) (car : Car) :
  car_roots car = [] -> carStat D car = Throw MissingRoot.
Proof. intros H. unfold carStat. now rewrite H. Qed.

Lemma carStat_many_roots (D : Decoders) (car : Car) :
  (List.length (car_roots car) > 1)%nat -> carStat D car = Throw TooManyRoots.
Proof.
  intros H. unfold carStat.
  destruct (car_roots car) as [|r rest] eqn:Hr; [simpl in H; lia|].
  replace (Z.of_nat (List.length (r :: rest)) >? 1) with true; [reflexivity|].
  symmetry. apply Z.gtb_lt. lia.
Qed.

(** What [carStat] does once the header has shown exactly one root. *)
Lemma carStat_one_root (D : Decoders) (car : Car) (rootCid : CID) :
  car_roots car = [rootCid] ->
  carStat D car =
  res_bind (scanBlocks rootCid (car_blocks car) (mkScan None 0 0))
    (fun st =>
      if scan_blocks st =? 0 then Throw (JsError "empty CAR")
      else
        match rawRootBlock st with
        | None => Throw (JsError "missing root block")
        | Some rawRoot =>
          match find (fun d => code d =? cid_code rootCid) (decoders D) with
          | Some decoder =>
            res_bind (decode decoder (block_bytes rawRoot)) (fun value =>
            if (scan_blocks st =? 1)
               && (Z.of_nat (List.length (links value)) >? 0) then
              Throw IncompleteDag
            else if cid_code rootCid =? pb_code then
              match value with
              | PbValue node =>
                Ok (mkCarStat (cumulativeSize (block_bytes rawRoot) node)
                              (scan_blocks st))
              | _ => Throw (JsTypeError "Cannot read properties of undefined")
              end
            else Ok (mkCarStat (scan_size st) (scan_blocks st)))
          | None => Ok (mkCarStat (scan_size st) (scan_blocks st))
          end
        end).
Proof. intros H. unfold carStat. rewrite H. reflexivity. Qed.

(** C4: a header without roots is refused with 'missing roots', a
    header with more than one root with 'too many roots', whatever the
    blocks of the stream are: no block is looked at before. *)
Theorem carStat_root_count (D : Decoders) (blobSize : Z) (roots : list CID)
        (stream : list Block) :
  (roots = [] ->
   carStat D (mkCar blobSize roots stream) = Throw (JsError "missing roots"))
  /\ ((List.length roots > 1)%nat ->
   carStat D (mkCar blobSize roots stream) = Throw (JsError "too many roots")).
Proof.
  split; intros H.
  - now apply carStat_no_roots.
  - now apply carStat_many_roots.
Qed.

(** Sample data for the examples below: identifiers over the identity
    multihash, a dag-pb node with two links of declared sizes 100 and
    200, and decoders that read every byte string as one given node. *)
Definition sampleCid (codec : Z) (tag : byte) : CID :=
  mkCID 1 codec [x00; x01; tag].
Definition sampleRoot : CID := sampleCid pb_code x01.
Definition sampleNode : PBNode :=
  mkPBNode None
    [mkPBLink (sampleCid raw_code x02) None (Some 100);
     mkPBLink (sampleCid raw_code x03) (Some "b") (Some 200)].
Definition constDecoders (node : PBNode) : Decoders :=
  mkDecoders (fun _ => Ok node) (fun _ => Ok []).
Definition zeros (n : Z) : list byte := repeat x00 (Z.to_nat n).

(** The full DAG of [sampleNode]: the root of 50 bytes and its two
    children; and the shard that holds the root alone. *)
Definition sampleDag : Car :=
  mkCar 450 [sampleRoot]
    [mkBlock sampleRoot (zeros 50);
     mkBlock (sampleCid raw_code x02) (zeros 100);
     mkBlock (sampleCid raw_code x03) (zeros 200)].
Definition sampleShard : Car :=
  mkCar 150 [sampleRoot] [mkBlock sampleRoot (zeros 50)].



Lemma rootBlockOf_In (rootCid : CID) (stream : list Block) (b : Block) :
  rootBlockOf rootCid stream = Some b -> In b stream.
Proof. intros H. now apply find_some in H. Qed.




(** A root block one byte over the limit, alone in its CAR. *)
Definition oversizeRoot : Block := mkBlock sampleRoot (zeros (MAX_BLOCK_SIZE + 1)).
Definition oversizeShard : Car := mkCar 1048700 [sampleRoot] [oversizeRoot].

Lemma oversizeRoot_oversize : oversize oversizeRoot.
Proof. unfold oversize. vm_compute. reflexivity. Qed.

(** C5, as stated, fails on a root block over the size limit: the CAR
    has one root, one block, a registered decoder and a root with links,
    and is refused for the size of the block. *)
Lemma oversize_linked_root_not_incomplete :
  car_roots oversizeShard = [sampleRoot]
  /\ car_blocks oversizeShard = [oversizeRoot]
  /\ CID_equals (block_cid oversizeRoot) sampleRoot = true
  /\ find (fun d => code d =? cid_code sampleRoot)
          (decoders (constDecoders sampleNode))
     = Some (pb (constDecoders sampleNode))
  /\ decode (pb (constDecoders sampleNode)) (block_bytes oversizeRoot)
     = Ok (PbValue sampleNode)
  /\ List.length (links (PbValue sampleNode)) = 2%nat
  /\ carStat (constDecoders sampleNode) oversizeShard
     = Throw (block_too_big (MAX_BLOCK_SIZE + 1))
  /\ carStat (constDecoders sampleNode) oversizeShard <> Throw IncompleteDag.
Proof.
  assert (H : carStat (constDecoders sampleNode) oversizeShard
              = Throw (block_too_big (MAX_BLOCK_SIZE + 1)))
    by (vm_compute; reflexivity).
  repeat split; try reflexivity; try exact H.
  rewrite H. vm_compute. discriminate.
Qed.

(** C5, amended: a CAR with one root and one block, the root block,
    within the size limit, whose codec has a decoder that reads it as a
    node with at least one link, is refused with 'CAR must contain at
    least one non-root block'. *)
Theorem carStat_incomplete_dag (D : Decoders) (car : Car) (rootCid : CID)
        (b : Block) (decoder : Codec) (value : Value) :
  car_roots car = [rootCid] ->
  car_blocks car = [b] ->
  CID_equals (block_cid b) rootCid = true ->
  ~ oversize b ->
  find (fun d => code d =? cid_code rootCid) (decoders D) = Some decoder ->
  decode decoder (block_bytes b) = Ok value ->
  links value <> [] ->
  carStat D car = Throw (JsError "CAR must contain at least one non-root block").
Proof.
  intros Hroots Hblocks Hcid Hfit Hfind Hdec Hlinks.
  rewrite (carStat_one_root D car rootCid Hroots), Hblocks.
  rewrite scanBlocks_fits by (constructor; [assumption | constructor]).
  cbn [res_bind rawRootBlock scan_blocks scan_size rootBlockOf find
       List.length].
  rewrite Hcid, Hfind. cbn [Z.of_nat Z.add Z.eqb Pos.of_succ_nat Pos.eqb].
  rewrite Hdec. cbn [res_bind andb].
  destruct (links value) as [|l ls]; [contradiction|].
  reflexivity.
Qed.

(** The shard of the sample node is such a CAR. *)
Lemma carStat_incomplete_dag_witness :
  carStat (constDecoders sampleNode) sampleShard
  = Throw (JsError "CAR must contain at least one non-root block").
Proof.
  apply (carStat_incomplete_dag (constDecoders sampleNode) sampleShard
           sampleRoot (mkBlock sampleRoot (zeros 50))
           (pb (constDecoders sampleNode)) (PbValue sampleNode)).
  - reflexivity.
  - reflexivity.
  - reflexivity.
  - unfold oversize. vm_compute. discriminate.
  - reflexivity.
  - reflexivity.
  - simpl. discriminate.
Defined.

(** A CAR whose header declares no root and whose only block is over
    the size limit. *)
Definition rootlessOversize : Car := mkCar 1048700 [] [oversizeRoot].

(** C6, as stated, fails where the header is refused first: a CAR with
    an oversize block and no root fails with 'missing roots'. *)
Lemma oversize_block_behind_bad_header :
  ~ (forall (D : Decoders) (car : Car),
        Exists oversize (car_blocks car) ->
        exists n, carStat D car = Throw (block_too_big n)).
Proof.
  intros H.
  destruct (H (constDecoders sampleNode) rootlessOversize) as [n Hn].
  - constructor. exact oversizeRoot_oversize.
  - rewrite carStat_no_roots in Hn by reflexivity.
    unfold MissingRoot, block_too_big in Hn. simpl in Hn. discriminate Hn.
Qed.

(** C6, amended: a CAR whose header declares exactly one root and whose
    stream holds a block over [MAX_BLOCK_SIZE], at whatever position, is
    refused with 'block too big' for the first such block; the blocks
    are checked as they are streamed, before the tests for an empty CAR
    and for a missing root block. *)
Theorem carStat_block_too_big (D : Decoders) (car : Car) (rootCid : CID) :
  car_roots car = [rootCid] ->
  Exists oversize (car_blocks car) ->
  exists pre b post,
    car_blocks car = (pre ++ b :: post)%list
    /\ Forall (fun b => ~ oversize b) pre
    /\ oversize b
    /\ carStat D car = Throw (block_too_big (byteLength (block_bytes b))).
Proof.
  intros Hroots Hex.
  destruct (scanBlocks_oversize rootCid (car_blocks car) Hex (mkScan None 0 0))
    as (pre & b & post & Heq & Hpre & Hbig & Hscan).
  exists pre, b, post. repeat split; try assumption.
  rewrite (carStat_one_root D car rootCid Hroots), Hscan. reflexivity.
Qed.

(** The oversize block last in the stream, behind the root block. *)
Definition oversizeTail : Car :=
  mkCar 1048750 [sampleRoot] [mkBlock sampleRoot (zeros 50); oversizeRoot].

(** There the root block fits and the block behind it is refused. *)
Lemma carStat_block_too_big_witness :
  exists pre b post,
    car_blocks oversizeTail = (pre ++ b :: post)%list
    /\ Forall (fun b => ~ oversize b) pre
    /\ oversize b
    /\ carStat (constDecoders sampleNode) oversizeTail
       = Throw (block_too_big (byteLength (block_bytes b))).
Proof.
  apply (carStat_block_too_big (constDecoders sampleNode) oversizeTail
           sampleRoot).
  - reflexivity.
  - unfold oversizeTail. cbn [car_blocks].
    apply Exists_cons_tl, Exists_cons_hd.
    unfold oversize. vm_compute. reflexivity.
Defined.

(** C4 on sample headers: no root, and two roots, each in front of a
    stream that would be refused for an oversize block. *)
Lemma carStat_root_count_witness :
  carStat (constDecoders sampleNode) (mkCar 1048700 [] [oversizeRoot])
  = Throw (JsError "missing roots")
  /\ carStat (constDecoders sampleNode)
       (mkCar 1048700 [sampleRoot; sampleCid raw_code x02] [oversizeRoot])
     = Throw (JsError "too many roots").
Proof.
  split.
  - apply (proj1 (carStat_root_count (constDecoders sampleNode) 1048700 []
                    [oversizeRoot])). reflexivity.
  - apply (proj2 (carStat_root_count (constDecoders sampleNode) 1048700
                    [sampleRoot; sampleCid raw_code x02] [oversizeRoot])).
    simpl. lia.
Defined.

(* ================================================================== *)
(** * Properties of parse-cid.js *)
(* ================================================================== *)

Lemma CID_toV1_version (c c1 : CID) :
  CID_toV1 c = Ok c1 -> cid_version c1 = 1.
Proof.
  unfold CID_toV1. intros H.
  destruct (Z.eqb_spec (cid_version c) 0).
  - inversion H. reflexivity.
  - destruct (Z.eqb_spec (cid_version c) 1); [|discriminate H].
    inversion H. subst. assumption.
Qed.

Lemma CID_toV1_of_v1 (c : CID) : cid_version c = 1 -> CID_toV1 c = Ok c.
Proof. intros H. unfold CID_toV1. rewrite H. reflexivity. Qed.



Lemma parseCid_Ok (L : Multiformats) (x s : string) :
  parseCid L x = Ok s <->
  exists c c1, CID_parse L x = Ok c /\ CID_toV1 c = Ok c1
               /\ s = CID_toString L c1.
Proof.
  unfold parseCid, try_rethrow. split.
  - destruct (CID_parse L x) as [c|e]; simpl; [|discriminate].
    destruct (CID_toV1 c) as [c1|e] eqn:Hv; simpl; [|discriminate].
    intros H. inversion H. exists c, c1. auto.
  - intros (c & c1 & Hp & Hv & Hs). rewrite Hp. simpl. rewrite Hv. simpl.
    now subst.
Qed.


(** ** A sample library: identifiers written in base 16

    The multibase prefixes [f] and [F] announce lower-case and upper-case
    hexadecimal; the bytes are the version, the codec and the multihash.
    The library writes lower case. *)

Definition hexChar (upper : bool) (n : N) : ascii :=
  if (n <? 10)%N then ascii_of_N (48 + n)
  else ascii_of_N ((if upper then 55 else 87) + n).

Definition hexVal (upper : bool) (c : ascii) : option N :=
  let n := N_of_ascii c in
  let a := (if upper then 65 else 97)%N in
  if ((48 <=? n) && (n <=? 57))%N then Some (n - 48)%N
  else if ((a <=? n) && (n <=? a + 5))%N then Some (n - a + 10)%N
  else None.

Fixpoint hexEncode (upper : bool) (bytes : list byte) : string :=
  match bytes with
  | [] => EmptyString
  | b :: rest =>
    String (hexChar upper (Byte.to_N b / 16))
      (String (hexChar upper (Byte.to_N b mod 16)) (hexEncode upper rest))
  end.

Fixpoint hexDecode (upper : bool) (s : string) : option (list byte) :=
  match s with
  | EmptyString => Some []
  | String hi (String lo rest) =>
    match hexVal upper hi, hexVal upper lo, hexDecode upper rest with
    | Some h, Some l, Some bytes =>
      option_map (fun b => b :: bytes) (Byte.of_N (h * 16 + l))
    | _, _, _ => None
    end
  | String _ EmptyString => None
  end.

Definition Z_of_byte (b : byte) : Z := Z.of_N (Byte.to_N b).
Definition byte_of_Z (z : Z) : byte :=
  match Byte.of_N (Z.to_N z) with Some b => b | None => x00 end.

Definition cidOfBytes (bytes : option (list byte)) : Res CID :=
  match bytes with
  | Some (v :: k :: hash) =>
    if Byte.eqb v x00 || Byte.eqb v x01
    then Ok (mkCID (Z_of_byte v) (Z_of_byte k) hash)
    else Throw (JsError "Invalid CID version")
  | _ => Throw (JsError "Unexpected end of data")
  end.

Definition hexParse (x : string) : Res CID :=
  match x with
  | String "f"%char rest => cidOfBytes (hexDecode false rest)
  | String "F"%char rest => cidOfBytes (hexDecode true rest)
  | _ => Throw (JsError "Unsupported multibase")
  end.

Definition hexToString (c : CID) : string :=
  String "f"%char
    (hexEncode false
       (byte_of_Z (cid_version c) :: byte_of_Z (cid_code c) :: cid_multihash c)).

Definition hexLibrary : Multiformats := mkMultiformats hexParse hexToString.

Lemma hex_byte (upper : bool) (b : byte) :
  match hexVal upper (hexChar upper (Byte.to_N b / 16)),
        hexVal upper (hexChar upper (Byte.to_N b mod 16)) with
  | Some h, Some l => Byte.of_N (h * 16 + l)
  | _, _ => None
  end = Some b.
Proof. destruct upper, b; reflexivity. Qed.

Lemma hexDecode_hexEncode (upper : bool) (bytes : list byte) :
  hexDecode upper (hexEncode upper bytes) = Some bytes.
Proof.
  induction bytes as [|b rest IH]; [reflexivity|].
  cbn [hexEncode hexDecode]. rewrite IH.
  pose proof (hex_byte upper b) as Hb.
  destruct (hexVal upper (hexChar upper (Byte.to_N b / 16)));
    [|discriminate Hb].
  destruct (hexVal upper (hexChar upper (Byte.to_N b mod 16)));
    [|discriminate Hb].
  rewrite Hb. reflexivity.
Qed.

Lemma byte_of_Z_of_byte (b : byte) : byte_of_Z (Z_of_byte b) = b.
Proof.
  unfold byte_of_Z, Z_of_byte. rewrite N2Z.id, Byte.of_to_N. reflexivity.
Qed.

Lemma cidOfBytes_Ok (bytes : option (list byte)) (c : CID) :
  cidOfBytes bytes = Ok c ->
  exists v k, (v = x00 \/ v = x01)
              /\ c = mkCID (Z_of_byte v) (Z_of_byte k) (cid_multihash c).
Proof.
  unfold cidOfBytes. destruct bytes as [[|v [|k hash]]|]; try discriminate.
  destruct (Byte.eqb v x00) eqn:H0; simpl.
  - intros H. inversion H. exists v, k. split; [|reflexivity].
    left. now apply Byte.byte_dec_bl.
  - destruct (Byte.eqb v x01) eqn:H1; [|discriminate].
    intros H. inversion H. exists v, k. split; [|reflexivity].
    right. now apply Byte.byte_dec_bl.
Qed.

Lemma hexParse_Ok (x : string) (c : CID) :
  hexParse x = Ok c ->
  exists v k, (v = x00 \/ v = x01)
              /\ c = mkCID (Z_of_byte v) (Z_of_byte k) (cid_multihash c).
Proof.
  unfold hexParse. destruct x as [|a rest]; [discriminate|].
  destruct (Ascii.eqb_spec a "f"%char) as [->|Hf].
  - apply cidOfBytes_Ok.
  - destruct (Ascii.eqb_spec a "F"%char) as [->|HF].
    + apply cidOfBytes_Ok.
    + intros H. exfalso.
      destruct a as [[] [] [] [] [] [] [] []]; try discriminate H;
        congruence.
Qed.

Lemma hexLibrary_laws : parse_inverts_toString hexLibrary.
Proof.
  intros x c c1 Hp Hv. unfold hexLibrary in *.
  cbn [CID_parse CID_toString] in *.
  apply hexParse_Ok in Hp. destruct Hp as (v & k & Hvk & Hc).
  assert (Hc1 : c1 = mkCID 1 (Z_of_byte k) (cid_multihash c)).
  { rewrite Hc in Hv. unfold CID_toV1 in Hv. simpl in Hv.
    destruct Hvk as [-> | ->]; simpl in Hv; inversion Hv; reflexivity. }
  subst c1. unfold hexToString, hexParse.
  cbn [cid_version cid_code cid_multihash].
  rewrite hexDecode_hexEncode, byte_of_Z_of_byte.
  reflexivity.
Qed.


(* ================================================================== *)
(** * Properties of the pin listing handler *)
(* ================================================================== *)

(** What [pinsGet] does with a [match] that is a string and a [status]
    that is an array: neither test of the handler looks at their
    contents, and the request goes through. *)
Lemma pinsGet_string_match_array_status
      (normalizeCid : JsVal -> Res string) (m : string) (ss : list JsVal) :
  pinsGet normalizeCid
    (mkPinsParams JUndefined JUndefined (JStr m) (JArr ss))
  = Ok (JSONResponse (JStr "OK") 200).
Proof.
  unfold pinsGet, cidCheck. cbn.
  destruct (negb (String.eqb m "")); reflexivity.
Qed.

(** A [match] that is not a string is refused as unpermitted. *)
Lemma pinsGet_non_string_match
      (normalizeCid : JsVal -> Res string) (m status : JsVal) :
  truthy m = true -> typeof m <> "string" ->
  pinsGet normalizeCid (mkPinsParams JUndefined JUndefined m status)
  = Ok (errorResponse UNPERMITTED_MATCH).
Proof.
  intros Ht Hs. unfold pinsGet, cidCheck. cbn [param_cid param_name
    param_match param_status truthy res_bind andb].
  rewrite Ht. destruct m; try reflexivity. now contradiction Hs.
Qed.

(** A [status] that is not an array makes the handler throw. *)
Lemma pinsGet_non_array_status
      (normalizeCid : JsVal -> Res string) (status : JsVal) :
  truthy status = true -> isArray status = false ->
  pinsGet normalizeCid (mkPinsParams JUndefined JUndefined JUndefined status)
  = Throw (JsTypeError "status.every is not a function").
Proof.
  intros Ht Ha. unfold pinsGet, cidCheck. cbn [param_cid param_name
    param_match param_status truthy res_bind andb].
  rewrite Ht, Ha. destruct status; try reflexivity; discriminate Ha.
Qed.

(** C9 on the code: a request whose [match] is the string 'bogus', and
    one whose [status] holds the value 'bogus', are answered with 200
    and 'OK', not with the 400 the claim asks for. *)
Theorem pinsGet_accepts_unpermitted (normalizeCid : JsVal -> Res string) :
  includes MATCH_OPTIONS (JStr "bogus") = false
  /\ pinsGet normalizeCid
       (mkPinsParams JUndefined JUndefined (JStr "bogus") JUndefined)
     = Ok (JSONResponse (JStr "OK") 200)
  /\ forallb (includes STATUS_OPTIONS) [JStr "bogus"] = false
  /\ pinsGet normalizeCid
       (mkPinsParams JUndefined JUndefined JUndefined (JArr [JStr "bogus"]))
     = Ok (JSONResponse (JStr "OK") 200).
Proof. repeat split. Qed.

(* ================================================================== *)
(** * Properties of the upload handler *)
(* ================================================================== *)

(** C7: when [carStat] throws, [handleCarUpload] throws the same error
    to its caller and leaves the world as it found it: no call to the
    cluster, none to the database, no task scheduled. *)
Theorem handleCarUpload_fail_before_write (E : Env) (D : Decoders)
        (fuel : nat) (request : AuthenticatedRequest) (ctx : Ctx) (car : Car)
        (uploadType : string) (e : Exn) (w : World) :
  carStat D car = Throw e ->
  handleCarUpload E D fuel request ctx car uploadType w = Some (Throw e, w).
Proof.
  intros H. unfold handleCarUpload, bind, lift. rewrite H. reflexivity.
Qed.

(** A sample environment.  The clock advances by one second from one
    reading to the next; the cluster knows one peer, unpinned, when it is
    first asked, and no peer at all from then on; the database accepts
    every query. *)
Definition sampleStatusEnum (s : string) : Res string :=
  if String.eqb s "pinned" then Ok "Pinned"
  else if String.eqb s "pinning" then Ok "Pinning"
  else if String.eqb s "pin_queued" then Ok "PinQueued"
  else if String.eqb s "unpinned" then Ok "Unpinned"
  else if String.eqb s "remote" then Ok "Remote"
  else Throw (JsError "unknown tracker status").

Definition isClusterStatus (ev : Event) : bool :=
  match ev with ClusterStatus _ => true | _ => false end.

Definition forgetfulCluster (history : list Event) (cid : string)
  : Res PeerMap :=
  if existsb isClusterStatus history then Ok []
  else Ok [("12D3KooW", mkPeerInfo "node-1" "unpinned")].

Definition sampleRecord : list (string * JsVal) :=
  [("cid", JStr "f01700001ab"); ("dagSize", JNum 350); ("pins", JArr [])].

Definition sampleDb (history : list Event) (cid : string)
  : Res (option (list (string * JsVal))) :=
  if String.eqb cid "f01700001ab" then Ok (Some sampleRecord) else Ok None.

Definition sampleEnv : Env :=
  mkEnv (fun n => 1000 * Z.of_nat n)
        (fun t => showZ t)
        (fun _ _ => Ok "bafysample")
        forgetfulCluster
        (fun _ _ => Ok (mkQueryReply "1"))
        sampleDb
        2621440
        sampleStatusEnum.

Definition sampleRequest : AuthenticatedRequest :=
  mkRequest "user-1" (Some "token-1") (JStr "my upload").

(** The upload of the shard, which [carStat] refuses, leaves the empty
    log empty. *)
Lemma handleCarUpload_fail_before_write_witness :
  handleCarUpload sampleEnv (constDecoders sampleNode) 10 sampleRequest
    (mkCtx true) sampleShard "Car" (mkWorld 0 [])
  = Some (Throw (JsError "CAR must contain at least one non-root block"),
          mkWorld 0 []).
Proof.
  apply (handleCarUpload_fail_before_write sampleEnv (constDecoders sampleNode)
           10 sampleRequest (mkCtx true) sampleShard "Car").
  vm_compute. reflexivity.
Defined.

(** The condition of the [while] loop is false unless more than
    [MAX_PIN_STATUS_CHECK_TIME] passed between the two readings of the
    clock that precede it: the task then ends at once, without a poll. *)
Lemma reconcileTask_skips_loop (E : Env) (fuel : nat) (cid content : string)
      (w : World) :
  Date_now E (S (ticks w)) - Date_now E (ticks w) <= MAX_PIN_STATUS_CHECK_TIME ->
  reconcileTask E (S fuel) cid content w
  = Some (Ok tt, mkWorld (S (S (ticks w))) (trace w)).
Proof.
  intros H. unfold reconcileTask, bind, now. cbn [pollLoop ticks trace].
  unfold bind, now. cbn [ticks trace].
  replace (Date_now E (S (ticks w)) - Date_now E (ticks w)
           >? MAX_PIN_STATUS_CHECK_TIME) with false.
  - reflexivity.
  - symmetry. rewrite Z.gtb_ltb. apply Z.ltb_ge. lia.
Qed.

(** Where the body of the loop does run and the cluster then reports
    no peer, the task fails with 'not pinning on any node' after one wait
    and one poll, and no query reaches the database. *)
Lemma pollLoop_no_replicas (E : Env) (fuel : nat) (cid content : string)
      (start : Z) (w : World) :
  Date_now E (ticks w) - start > MAX_PIN_STATUS_CHECK_TIME ->
  cluster_status E (trace w ++ [SetTimeout PIN_STATUS_CHECK_INTERVAL]) cid
  = Ok [] ->
  pollLoop E (S fuel) cid content start w
  = Some (Throw not_pinning,
          mkWorld (S (ticks w))
            (trace w ++ [SetTimeout PIN_STATUS_CHECK_INTERVAL;
                         ClusterStatus cid])).
Proof.
  intros Hlate Hzero. cbn [pollLoop]. unfold bind at 1. unfold now.
  replace (Date_now E (ticks w) - start >? MAX_PIN_STATUS_CHECK_TIME)
    with true by (symmetry; apply Z.gtb_lt; lia).
  unfold bind, sleep, log, env_cluster_status, call, lift, emit.
  cbn [ticks trace]. rewrite Hzero. cbn [toPins List.length Z.of_nat Z.eqb].
  unfold throw. rewrite <- app_assoc. reflexivity.
Qed.

(** C1 on the code: in the sample environment, whose cluster reports
    zero peers to the first poll of the loop, the reconciliation task
    ends normally: it never polls, it does not fail with 'not pinning on
    any node', and the log of events stays empty. *)
Theorem reconcileTask_zero_peers_no_failure (fuel : nat) :
  cluster_status sampleEnv [] "bafysample" <> Ok []
  /\ cluster_status sampleEnv [ClusterStatus "bafysample"] "bafysample" = Ok []
  /\ reconcileTask sampleEnv (S fuel) "bafysample" "1"
       (mkWorld 0 [ClusterStatus "bafysample"])
     = Some (Ok tt, mkWorld 2 [ClusterStatus "bafysample"]).
Proof.
  refine (conj _ (conj eq_refl _)).
  - discriminate.
  - apply (reconcileTask_skips_loop sampleEnv fuel "bafysample" "1"
             (mkWorld 0 [ClusterStatus "bafysample"])).
    vm_compute. discriminate.
Qed.

(** The same through the handler: the upload of the sample DAG is
    stored with its one unpinned replica, both tasks settle without an
    error, and the cluster status is asked for once, by the handler
    itself. *)
Lemma handleCarUpload_sample_run :
  handleCarUpload sampleEnv (constDecoders sampleNode) 10 sampleRequest
    (mkCtx true) sampleDag "Car" (mkWorld 0 [])
  = Some (Ok (JSONResponse (JObj [("cid", JStr "bafysample")]) 200),
          mkWorld 2
            [ClusterAdd sampleDag "450" false;
             ClusterStatus "bafysample";
             DbQuery (CREATE_UPLOAD
               (mkUploadData "user-1" (Some "token-1") "bafysample"
                  "my upload" "Car"
                  [mkPin "Unpinned" (mkLocation "12D3KooW" "node-1")] 350));
             DbQuery (INCREMENT_USER_USED_STORAGE "user-1" 350);
             Settled (Ok tt);
             Settled (Ok tt)]).
Proof. vm_compute. reflexivity. Qed.

(* ================================================================== *)
(** * Properties of the status handler *)
(* ================================================================== *)





(* ================================================================== *)
(** * More on the CAR validator *)
(* ================================================================== *)

Definition fits (b : Block) : Prop := ~ oversize b.

Lemma fits_or_oversize (stream : list Block) :
  Forall fits stream \/ Exists oversize stream.
Proof.
  induction stream as [|b rest [IH | IH]].
  - left. constructor.
  - destruct (Z_gt_dec (byteLength (block_bytes b)) MAX_BLOCK_SIZE) as [Hb | Hb].
    + right. now constructor.
    + left. now constructor.
  - right. now apply Exists_cons_tl.
Qed.

(** [carStat] on a CAR with one root whose blocks all fit: nothing is
    left of the streaming loop but the count of the blocks, the sum of
    their lengths and the first block of the root. *)
Lemma carStat_fits (D : Decoders) (car : Car) (rootCid : CID) :
  car_roots car = [rootCid] ->
  Forall fits (car_blocks car) ->
  carStat D car =
  let n := Z.of_nat (List.length (car_blocks car)) in
  if n =? 0 then Throw (JsError "empty CAR")
  else
    match rootBlockOf rootCid (car_blocks car) with
    | None => Throw (JsError "missing root block")
    | Some rawRoot =>
      match find (fun d => code d =? cid_code rootCid) (decoders D) with
      | Some decoder =>
        res_bind (decode decoder (block_bytes rawRoot)) (fun value =>
        if (n =? 1) && (Z.of_nat (List.length (links value)) >? 0) then
          Throw IncompleteDag
        else if cid_code rootCid =? pb_code then
          match value with
          | PbValue node =>
            Ok (mkCarStat (cumulativeSize (block_bytes rawRoot) node) n)
          | _ => Throw (JsTypeError "Cannot read properties of undefined")
          end
        else Ok (mkCarStat (rawSize (car_blocks car)) n))
      | None => Ok (mkCarStat (rawSize (car_blocks car)) n)
      end
    end.
Proof.
  intros Hroots Hfit.
  rewrite (carStat_one_root D car rootCid Hroots).
  rewrite (scanBlocks_fits rootCid _ Hfit).
  cbn [res_bind rawRootBlock scan_blocks scan_size]. rewrite !Z.add_0_l.
  reflexivity.
Qed.

Lemma rawSize_bounds (stream : list Block) :
  Forall fits stream ->
  0 <= rawSize stream <= Z.of_nat (List.length stream) * MAX_BLOCK_SIZE.
Proof.
  induction 1 as [|b rest Hb _ IH].
  - simpl. lia.
  - cbn [rawSize fold_right List.length]. fold (rawSize rest).
    unfold fits, oversize in Hb. unfold byteLength in *. lia.
Qed.

Lemma decoders_find (D : Decoders) (k : Z) :
  find (fun d => code d =? k) (decoders D) =
  if pb_code =? k then Some (pb D)
  else if raw_code =? k then Some raw
  else if cbor_code =? k then Some (cbor D)
  else None.
Proof. reflexivity. Qed.

(** X1.  What [carStat] accepts: every CAR it returns a result for has
    exactly one root, at least one block, no block over the size limit
    and a block for its root, and the block count returned is the number
    of blocks in the stream. *)
Theorem carStat_accepts_only_valid (D : Decoders) (car : Car) (st : CarStat) :
  carStat D car = Ok st ->
  exists rootCid rawRoot,
    car_roots car = [rootCid]
    /\ Forall fits (car_blocks car)
    /\ rootBlockOf rootCid (car_blocks car) = Some rawRoot
    /\ blocks st = Z.of_nat (List.length (car_blocks car))
    /\ 1 <= blocks st.
Proof.
  intros Hok.
  destruct (car_roots car) as [|rootCid [|r2 more]] eqn:Hroots.
  - rewrite carStat_no_roots in Hok by assumption. discriminate Hok.
  - destruct (fits_or_oversize (car_blocks car)) as [Hfit | Hbig].
    + rewrite (carStat_fits D car rootCid Hroots Hfit) in Hok. cbv zeta in Hok.
      destruct (Z.eqb_spec (Z.of_nat (List.length (car_blocks car))) 0)
        as [H0 | H0]; [discriminate Hok|].
      destruct (rootBlockOf rootCid (car_blocks car)) as [rawRoot|] eqn:Hroot;
        [|discriminate Hok].
      exists rootCid, rawRoot.
      assert (Hblocks : blocks st = Z.of_nat (List.length (car_blocks car))).
      { destruct (find _ (decoders D)) as [decoder|]; [|now inversion Hok].
        destruct (decode decoder (block_bytes rawRoot)) as [value|e];
          [|discriminate Hok].
        cbn [res_bind] in Hok.
        destruct (_ && _); [discriminate Hok|].
        destruct (cid_code rootCid =? pb_code); [|now inversion Hok].
        destruct value; try discriminate Hok. now inversion Hok. }
      repeat split; try assumption. lia.
    + destruct (scanBlocks_oversize rootCid _ Hbig (mkScan None 0 0))
        as (pre & b & post & _ & _ & _ & Hscan).
      rewrite (carStat_one_root D car rootCid Hroots), Hscan in Hok.
      discriminate Hok.
  - rewrite carStat_many_roots in Hok by (rewrite Hroots; simpl; lia).
    discriminate Hok.
Qed.

Definition rawBlockCar : Car :=
  mkCar 110 [sampleCid raw_code x07] [mkBlock (sampleCid raw_code x07) (zeros 70)].

Lemma carStat_accepts_only_valid_witness :
  exists rootCid rawRoot,
    car_roots rawBlockCar = [rootCid]
    /\ Forall fits (car_blocks rawBlockCar)
    /\ rootBlockOf rootCid (car_blocks rawBlockCar) = Some rawRoot
    /\ blocks (mkCarStat 70 1) = Z.of_nat (List.length (car_blocks rawBlockCar))
    /\ 1 <= blocks (mkCarStat 70 1).
Proof.
  apply (carStat_accepts_only_valid (constDecoders sampleNode) rawBlockCar).
  vm_compute. reflexivity.
Defined.

(** X2.  A root of the raw codec: the CAR is accepted whenever it has
    one root, blocks that fit and a block for the root, whatever the
    decoders are, and its size is the sum of the lengths of the blocks in
    the stream. *)
Theorem carStat_raw_root (D : Decoders) (car : Car) (rootCid : CID)
        (rawRoot : Block) :
  car_roots car = [rootCid] ->
  cid_code rootCid = raw_code ->
  Forall fits (car_blocks car) ->
  rootBlockOf rootCid (car_blocks car) = Some rawRoot ->
  carStat D car =
  Ok (mkCarStat (rawSize (car_blocks car))
                (Z.of_nat (List.length (car_blocks car)))).
Proof.
  intros Hroots Hcode Hfit Hroot.
  rewrite (carStat_fits D car rootCid Hroots Hfit). cbv zeta.
  rewrite Hroot, decoders_find, Hcode.
  assert (Hlen : (List.length (car_blocks car) >= 1)%nat).
  { apply rootBlockOf_In in Hroot.
    destruct (car_blocks car); [contradiction | simpl; lia]. }
  replace (Z.of_nat (List.length (car_blocks car)) =? 0) with false
    by (symmetry; apply Z.eqb_neq; lia).
  cbn. now rewrite andb_false_r.
Qed.

(** A CAR of one raw block has the size of that block. *)
Lemma carStat_raw_root_witness :
  carStat (constDecoders sampleNode) rawBlockCar = Ok (mkCarStat 70 1).
Proof.
  apply (carStat_raw_root (constDecoders sampleNode) rawBlockCar
           (sampleCid raw_code x07) (mkBlock (sampleCid raw_code x07) (zeros 70))).
  - reflexivity.
  - reflexivity.
  - repeat constructor. unfold fits, oversize. vm_compute. discriminate.
  - reflexivity.
Defined.

(** X3.  A root whose codec has no decoder: the root block is not
    decoded, no link is looked for, and the CAR, even one of a single
    block, is accepted with the sum of the lengths of its blocks. *)
Theorem carStat_unknown_codec (D : Decoders) (car : Car) (rootCid : CID)
        (rawRoot : Block) :
  car_roots car = [rootCid] ->
  cid_code rootCid <> pb_code ->
  cid_code rootCid <> raw_code ->
  cid_code rootCid <> cbor_code ->
  Forall fits (car_blocks car) ->
  rootBlockOf rootCid (car_blocks car) = Some rawRoot ->
  carStat D car =
  Ok (mkCarStat (rawSize (car_blocks car))
                (Z.of_nat (List.length (car_blocks car)))).
Proof.
  intros Hroots Hpb Hraw Hcbor Hfit Hroot.
  rewrite (carStat_fits D car rootCid Hroots Hfit). cbv zeta.
  rewrite Hroot, decoders_find.
  assert (Hlen : (List.length (car_blocks car) >= 1)%nat).
  { apply rootBlockOf_In in Hroot.
    destruct (car_blocks car); [contradiction | simpl; lia]. }
  replace (Z.of_nat (List.length (car_blocks car)) =? 0) with false
    by (symmetry; apply Z.eqb_neq; lia).
  destruct (Z.eqb_spec pb_code (cid_code rootCid)); [congruence|].
  destruct (Z.eqb_spec raw_code (cid_code rootCid)); [congruence|].
  destruct (Z.eqb_spec cbor_code (cid_code rootCid)); [congruence|].
  reflexivity.
Qed.

(** A single block under the dag-json codec (0x0129). *)
Definition jsonBlockCar : Car :=
  mkCar 80 [sampleCid 297 x08] [mkBlock (sampleCid 297 x08) (zeros 40)].

Lemma carStat_unknown_codec_witness :
  carStat (constDecoders sampleNode) jsonBlockCar = Ok (mkCarStat 40 1).
Proof.
  apply (carStat_unknown_codec (constDecoders sampleNode) jsonBlockCar
           (sampleCid 297 x08) (mkBlock (sampleCid 297 x08) (zeros 40))).
  - reflexivity.
  - discriminate.
  - discriminate.
  - discriminate.
  - repeat constructor. unfold fits, oversize. vm_compute. discriminate.
  - reflexivity.
Defined.

(** X4.  A dag-cbor root that decodes: with two blocks or more, or with
    no link in the root, the size is the sum of the lengths of the blocks
    in the stream; the declared sizes play no part. *)
Theorem carStat_cbor_root (D : Decoders) (car : Car) (rootCid : CID)
        (rawRoot : Block) (cids : list CID) :
  car_roots car = [rootCid] ->
  cid_code rootCid = cbor_code ->
  Forall fits (car_blocks car) ->
  rootBlockOf rootCid (car_blocks car) = Some rawRoot ->
  cbor_decode D (block_bytes rawRoot) = Ok cids ->
  (List.length (car_blocks car) >= 2)%nat \/ cids = [] ->
  carStat D car =
  Ok (mkCarStat (rawSize (car_blocks car))
                (Z.of_nat (List.length (car_blocks car)))).
Proof.
  intros Hroots Hcode Hfit Hroot Hdec Hshape.
  rewrite (carStat_fits D car rootCid Hroots Hfit). cbv zeta.
  rewrite Hroot, decoders_find, Hcode.
  assert (Hlen : (List.length (car_blocks car) >= 1)%nat).
  { apply rootBlockOf_In in Hroot.
    destruct (car_blocks car); [contradiction | simpl; lia]. }
  replace (Z.of_nat (List.length (car_blocks car)) =? 0) with false
    by (symmetry; apply Z.eqb_neq; lia).
  cbn [Z.eqb pb_code raw_code cbor_code Pos.eqb]. unfold cbor. cbn [decode].
  rewrite Hdec. cbn [res_map res_bind links].
  replace ((Z.of_nat (List.length (car_blocks car)) =? 1)
           && (Z.of_nat (List.length cids) >? 0)) with false; [reflexivity|].
  symmetry. destruct Hshape as [H2 | ->].
  - apply andb_false_intro1. apply Z.eqb_neq. lia.
  - apply andb_false_intro2. reflexivity.
Qed.

(** One dag-cbor block without links. *)
Definition cborBlockCar : Car :=
  mkCar 100 [sampleCid cbor_code x09] [mkBlock (sampleCid cbor_code x09) (zeros 60)].

Lemma carStat_cbor_root_witness :
  carStat (constDecoders sampleNode) cborBlockCar = Ok (mkCarStat 60 1).
Proof.
  apply (carStat_cbor_root (constDecoders sampleNode) cborBlockCar
           (sampleCid cbor_code x09)
           (mkBlock (sampleCid cbor_code x09) (zeros 60)) []).
  - reflexivity.
  - reflexivity.
  - repeat constructor. unfold fits, oversize. vm_compute. discriminate.
  - reflexivity.
  - reflexivity.
  - right. reflexivity.
Defined.

(** X5.  A stream without a block for the declared root: the empty
    stream is refused with 'empty CAR', any other stream of fitting
    blocks with 'missing root block', whatever else it holds. *)
Theorem carStat_without_root_block (D : Decoders) (car : Car) (rootCid : CID) :
  car_roots car = [rootCid] ->
  Forall fits (car_blocks car) ->
  (forall b, In b (car_blocks car) -> CID_equals (block_cid b) rootCid = false) ->
  carStat D car =
  Throw (JsError (if Nat.eqb (List.length (car_blocks car)) 0
                  then "empty CAR" else "missing root block")).
Proof.
  intros Hroots Hfit Hnone.
  rewrite (carStat_fits D car rootCid Hroots Hfit). cbv zeta.
  destruct (car_blocks car) as [|b rest] eqn:Hblocks; [reflexivity|].
  replace (Z.of_nat (List.length (b :: rest)) =? 0) with false
    by (symmetry; apply Z.eqb_neq; simpl; lia).
  destruct (rootBlockOf rootCid (b :: rest)) as [r|] eqn:Hroot; [|reflexivity].
  apply find_some in Hroot. destruct Hroot as [Hin Heq].
  rewrite (Hnone r Hin) in Heq. discriminate Heq.
Qed.

(** The children of the sample node without their root. *)
Definition rootlessStream : Car :=
  mkCar 340 [sampleRoot]
    [mkBlock (sampleCid raw_code x02) (zeros 100);
     mkBlock (sampleCid raw_code x03) (zeros 200)].

Lemma carStat_without_root_block_witness :
  carStat (constDecoders sampleNode) rootlessStream
  = Throw (JsError "missing root block").
Proof.
  apply (carStat_without_root_block (constDecoders sampleNode) rootlessStream
           sampleRoot).
  - reflexivity.
  - repeat constructor; unfold fits, oversize; vm_compute; discriminate.
  - intros b [<- | [<- | []]]; reflexivity.
Defined.

(** X6.  A root block its decoder cannot read: the error of the decoder
    is the error of [carStat]. *)
Theorem carStat_decode_failure (D : Decoders) (car : Car) (rootCid : CID)
        (rawRoot : Block) (decoder : Codec) (e : Exn) :
  car_roots car = [rootCid] ->
  Forall fits (car_blocks car) ->
  rootBlockOf rootCid (car_blocks car) = Some rawRoot ->
  find (fun d => code d =? cid_code rootCid) (decoders D) = Some decoder ->
  decode decoder (block_bytes rawRoot) = Throw e ->
  carStat D car = Throw e.
Proof.
  intros Hroots Hfit Hroot Hfind Hdec.
  rewrite (carStat_fits D car rootCid Hroots Hfit). cbv zeta.
  rewrite Hroot, Hfind, Hdec.
  destruct (Z.eqb_spec (Z.of_nat (List.length (car_blocks car))) 0) as [H0|H0];
    [|reflexivity].
  apply rootBlockOf_In in Hroot.
  destruct (car_blocks car); [contradiction | simpl in H0; lia].
Qed.

(** Decoders that read nothing. *)
Definition failingDecoders : Decoders :=
  mkDecoders (fun _ => Throw (JsError "Unexpected end of data"))
             (fun _ => Throw (JsError "CBOR decode error")).

Lemma carStat_decode_failure_witness :
  carStat failingDecoders sampleDag = Throw (JsError "Unexpected end of data").
Proof.
  apply (carStat_decode_failure failingDecoders sampleDag sampleRoot
           (mkBlock sampleRoot (zeros 50)) (pb failingDecoders)).
  - reflexivity.
  - repeat constructor; unfold fits, oversize; vm_compute; discriminate.
  - reflexivity.
  - reflexivity.
  - reflexivity.
Defined.

(** X7.  Bounds of the result for a root that is not dag-pb: the size
    lies between 0 and the number of blocks times [MAX_BLOCK_SIZE]. *)
Theorem carStat_size_bounds (D : Decoders) (car : Car) (rootCid : CID)
        (st : CarStat) :
  carStat D car = Ok st ->
  car_roots car = [rootCid] ->
  cid_code rootCid <> pb_code ->
  0 <= size st <= blocks st * MAX_BLOCK_SIZE.
Proof.
  intros Hok Hroots Hcode.
  destruct (fits_or_oversize (car_blocks car)) as [Hfit | Hbig].
  - pose proof (rawSize_bounds _ Hfit) as Hb.
    rewrite (carStat_fits D car rootCid Hroots Hfit) in Hok. cbv zeta in Hok.
    destruct (_ =? 0); [discriminate Hok|].
    destruct (rootBlockOf rootCid (car_blocks car)) as [rawRoot|];
      [|discriminate Hok].
    destruct (Z.eqb_spec (cid_code rootCid) pb_code) as [Heq | _];
      [contradiction|].
    destruct (find _ (decoders D)) as [decoder|].
    + destruct (decode decoder (block_bytes rawRoot)) as [value|e];
        [|discriminate Hok].
      cbn [res_bind] in Hok. destruct (_ && _); [discriminate Hok|].
      inversion Hok. subst st. exact Hb.
    + inversion Hok. subst st. exact Hb.
  - destruct (scanBlocks_oversize rootCid _ Hbig (mkScan None 0 0))
      as (pre & b & post & _ & _ & _ & Hscan).
    rewrite (carStat_one_root D car rootCid Hroots), Hscan in Hok.
    discriminate Hok.
Qed.

Lemma carStat_size_bounds_witness :
  0 <= size (mkCarStat 70 1) <= blocks (mkCarStat 70 1) * MAX_BLOCK_SIZE.
Proof.
  apply (carStat_size_bounds (constDecoders sampleNode) rawBlockCar
           (sampleCid raw_code x07)).
  - vm_compute. reflexivity.
  - reflexivity.
  - discriminate.
Defined.

(** X8.  The size of a dag-pb DAG does not depend on how much of it the
    CAR holds: two CARs of two blocks or more each, with the same root
    and the same bytes in their root block, get the same size, or fail
    with the same error. *)
Theorem carStat_partial_same_size (D : Decoders) (car1 car2 : Car)
        (rootCid : CID) (root1 root2 : Block) :
  car_roots car1 = [rootCid] -> car_roots car2 = [rootCid] ->
  cid_code rootCid = pb_code ->
  Forall fits (car_blocks car1) -> Forall fits (car_blocks car2) ->
  rootBlockOf rootCid (car_blocks car1) = Some root1 ->
  rootBlockOf rootCid (car_blocks car2) = Some root2 ->
  block_bytes root1 = block_bytes root2 ->
  (List.length (car_blocks car1) >= 2)%nat ->
  (List.length (car_blocks car2) >= 2)%nat ->
  res_map size (carStat D car1) = res_map size (carStat D car2).
Proof.
  intros Hr1 Hr2 Hcode Hf1 Hf2 Hb1 Hb2 Hbytes Hl1 Hl2.
  rewrite (carStat_fits D car1 rootCid Hr1 Hf1).
  rewrite (carStat_fits D car2 rootCid Hr2 Hf2). cbv zeta.
  rewrite Hb1, Hb2, Hbytes, decoders_find, Hcode.
  replace (Z.of_nat (List.length (car_blocks car1)) =? 0) with false
    by (symmetry; apply Z.eqb_neq; lia).
  replace (Z.of_nat (List.length (car_blocks car2)) =? 0) with false
    by (symmetry; apply Z.eqb_neq; lia).
  replace (Z.of_nat (List.length (car_blocks car1)) =? 1) with false
    by (symmetry; apply Z.eqb_neq; lia).
  replace (Z.of_nat (List.length (car_blocks car2)) =? 1) with false
    by (symmetry; apply Z.eqb_neq; lia).
  cbn [Z.eqb pb_code Pos.eqb andb].
  destruct (decode (pb D) (block_bytes root2)) as [value|e]; [|reflexivity].
  cbn [res_bind]. destruct value; reflexivity.
Qed.

(** The root of the sample node with one of its two children. *)
Definition samplePartial : Car :=
  mkCar 200 [sampleRoot]
    [mkBlock sampleRoot (zeros 50);
     mkBlock (sampleCid raw_code x02) (zeros 100)].

Lemma carStat_partial_same_size_witness :
  res_map size (carStat (constDecoders sampleNode) samplePartial)
  = res_map size (carStat (constDecoders sampleNode) sampleDag).
Proof.
  apply (carStat_partial_same_size (constDecoders sampleNode) samplePartial
           sampleDag sampleRoot (mkBlock sampleRoot (zeros 50))
           (mkBlock sampleRoot (zeros 50))).
  - reflexivity.
  - reflexivity.
  - reflexivity.
  - repeat constructor; unfold fits, oversize; vm_compute; discriminate.
  - repeat constructor; unfold fits, oversize; vm_compute; discriminate.
  - reflexivity.
  - reflexivity.
  - reflexivity.
  - simpl. lia.
  - simpl. lia.
Defined.

(* ================================================================== *)
(** * car.js: the size of a response body *)
(* ================================================================== *)

(** The body of a response as its reader hands it out: the chunks in
    order, then the end of the stream or the error the stream fails
    with. *)
Record ReadableStream : Type := mkStream {
  stream_chunks : list (list byte);
  stream_error : option Exn
}.

(** [Headers]: the values by name, names compared without case and kept
    here in lower case. *)
Definition Headers : Type := list (string * string).

(** A [Response] of the fetch API: status, headers and body ([None] for
    a null body). *)
Record HttpResponse : Type := mkHttpResponse {
  res_status : Z;
  res_headers : Headers;
  res_body : option ReadableStream
}.

(** The [while (true)] loop of [sizeOf]: one round per [reader.read()]. *)
Fixpoint readToEnd (chunks : list (list byte)) (error : option Exn) (size : Z)
  : Res Z :=
  match chunks with
  | [] =>
    match error with
    | Some e => Throw e            (* the read rejects *)
    | None => Ok size              (* done *)
    end
  | value :: rest => readToEnd rest error (size + byteLength value)
  end.

Definition sizeOf (response : HttpResponse) : Res Z :=
  match res_body response with
  | Some body => readToEnd (stream_chunks body) (stream_error body) 0
  | None => Throw (JsTypeError "Cannot read properties of null")
  end.

Lemma readToEnd_done (chunks : list (list byte)) (size : Z) :
  readToEnd chunks None size = Ok (size + byteLength (List.concat chunks)).
Proof.
  revert size. induction chunks as [|c rest IH]; intros size; simpl.
  - unfold byteLength. simpl. f_equal. lia.
  - rewrite IH. f_equal. unfold byteLength. rewrite List.length_app. lia.
Qed.

Lemma readToEnd_error (chunks : list (list byte)) (e : Exn) (size : Z) :
  readToEnd chunks (Some e) size = Throw e.
Proof. revert size. induction chunks; intros; simpl; auto. Qed.

Lemma sizeOf_body (status : Z) (headers : Headers) (body : ReadableStream) :
  sizeOf (mkHttpResponse status headers (Some body)) =
  match stream_error body with
  | None => Ok (byteLength (List.concat (stream_chunks body)))
  | Some e => Throw e
  end.
Proof.
  unfold sizeOf. cbn [res_body]. destruct (stream_error body) as [e|].
  - apply readToEnd_error.
  - now rewrite readToEnd_done.
Qed.

(** X9.  [sizeOf] of a response whose body ends is the number of bytes
    of the body, however the stream cuts them into chunks: two bodies
    with the same bytes have the same size. *)
Theorem sizeOf_counts_bytes (r1 r2 : HttpResponse) (b1 b2 : ReadableStream) :
  res_body r1 = Some b1 -> res_body r2 = Some b2 ->
  stream_error b1 = None -> stream_error b2 = None ->
  List.concat (stream_chunks b1) = List.concat (stream_chunks b2) ->
  sizeOf r1 = Ok (byteLength (List.concat (stream_chunks b1)))
  /\ sizeOf r2 = sizeOf r1.
Proof.
  intros H1 H2 He1 He2 Hsame.
  destruct r1 as [s1 h1 o1], r2 as [s2 h2 o2]. cbn [res_body] in H1, H2.
  subst o1 o2. rewrite !sizeOf_body, He1, He2, Hsame. split; reflexivity.
Qed.

Definition bytesOf (s : string) : list byte := list_byte_of_string s.

Lemma sizeOf_counts_bytes_witness :
  sizeOf (mkHttpResponse 200 []
            (Some (mkStream [bytesOf "ab"; []; bytesOf "cde"] None)))
  = Ok 5
  /\ sizeOf (mkHttpResponse 200 [] (Some (mkStream [bytesOf "abcde"] None)))
     = sizeOf (mkHttpResponse 200 []
                 (Some (mkStream [bytesOf "ab"; []; bytesOf "cde"] None))).
Proof.
  apply (sizeOf_counts_bytes
           (mkHttpResponse 200 []
              (Some (mkStream [bytesOf "ab"; []; bytesOf "cde"] None)))
           (mkHttpResponse 200 [] (Some (mkStream [bytesOf "abcde"] None)))
           (mkStream [bytesOf "ab"; []; bytesOf "cde"] None)
           (mkStream [bytesOf "abcde"] None));
    reflexivity.
Defined.

(* ================================================================== *)
(** * More on the upload handler *)
(* ================================================================== *)

(** What [toPins] copies from an entry of the peer map. *)
Definition pinPeer (p : Pin) : string * string :=
  (peerId (pin_location p), peerName (pin_location p)).
Definition entryPeer (entry : string * PeerInfo) : string * string :=
  (fst entry, peer_peerName (snd entry)).

(** X10.  [toPins] gives one pin per peer of the map, in the order of
    the map, each with the id and the name of its peer and the status
    [toPinStatusEnum] gives for the status the peer reports. *)
Theorem toPins_one_pin_per_peer (E : Env) (peerMap : PeerMap) (pins : list Pin) :
  toPins E peerMap = Ok pins ->
  map pinPeer pins = map entryPeer peerMap
  /\ Forall2 (fun entry p =>
                toPinStatusEnum E (peer_status (snd entry)) = Ok (pin_status p))
             peerMap pins.
Proof.
  revert pins. induction peerMap as [|[id info] rest IH]; intros pins H.
  - inversion H. split; constructor.
  - cbn [toPins] in H.
    destruct (toPinStatusEnum E (peer_status info)) as [status|e] eqn:Hs;
      [|discriminate H].
    cbn [res_bind] in H.
    destruct (toPins E rest) as [pins'|e]; [|discriminate H].
    inversion H. subst pins. destruct (IH pins' eq_refl) as [Hm Hf].
    split.
    + cbn [map]. now rewrite Hm.
    + now constructor.
Qed.

Definition samplePeers : PeerMap :=
  [("12D3KooWA", mkPeerInfo "node-1" "pinned");
   ("12D3KooWB", mkPeerInfo "node-2" "pin_queued")].

Lemma toPins_one_pin_per_peer_witness :
  map pinPeer [mkPin "Pinned" (mkLocation "12D3KooWA" "node-1");
               mkPin "PinQueued" (mkLocation "12D3KooWB" "node-2")]
  = map entryPeer samplePeers
  /\ Forall2 (fun entry p =>
                toPinStatusEnum sampleEnv (peer_status (snd entry))
                = Ok (pin_status p))
             samplePeers
             [mkPin "Pinned" (mkLocation "12D3KooWA" "node-1");
              mkPin "PinQueued" (mkLocation "12D3KooWB" "node-2")].
Proof.
  apply (toPins_one_pin_per_peer sampleEnv samplePeers). reflexivity.
Defined.

(** X11.  [toPins] fails exactly on the first peer whose status
    [toPinStatusEnum] refuses: with the statuses before it accepted, the
    error for that peer is the error of [toPins]. *)
Theorem toPins_first_refused_status (E : Env) (before after : PeerMap)
        (id : string) (info : PeerInfo) (e : Exn) :
  Forall (fun entry => exists s,
            toPinStatusEnum E (peer_status (snd entry)) = Ok s) before ->
  toPinStatusEnum E (peer_status info) = Throw e ->
  toPins E (before ++ (id, info) :: after)%list = Throw e.
Proof.
  intros Hbefore Hbad. induction Hbefore as [|[id0 info0] rest [s Hs] _ IH].
  - cbn [app toPins]. now rewrite Hbad.
  - cbn [app toPins]. cbn [snd] in Hs. rewrite Hs. cbn [res_bind].
    now rewrite IH.
Qed.

Lemma toPins_first_refused_status_witness :
  toPins sampleEnv
    (samplePeers ++ ("12D3KooWC", mkPeerInfo "node-3" "bogus") :: samplePeers)%list
  = Throw (JsError "unknown tracker status").
Proof.
  apply (toPins_first_refused_status sampleEnv samplePeers samplePeers
           "12D3KooWC" (mkPeerInfo "node-3" "bogus")).
  - repeat constructor; eexists; reflexivity.
  - reflexivity.
Defined.

(** The statements of [handleCarUpload] that follow the test of the
    pins: the name, the stored upload, the tasks, the response. *)
Definition uploadTail (E : Env) (fuel : nat) (request : AuthenticatedRequest)
           (ctx : Ctx) (uploadType : string) (cid : string) (pins : list Pin)
           (dagSize : Z) : M Response :=
  (name <- match header_x_name request with
           | JStr s =>
             if String.eqb s "" then
               t <- now E ;; ret ("Upload at " ++ toISOString E t)
             else ret s
           | _ => t <- now E ;; ret ("Upload at " ++ toISOString E t)
           end ;;
   upload <- retry
               (env_db_query E (CREATE_UPLOAD
                  (mkUploadData (auth_user_id request)
                     (auth_authToken_id request) cid name uploadType
                     pins dagSize)))
               CREATE_UPLOAD_RETRIES CREATE_UPLOAD_MAX_TIMEOUT ;;
   let tasks :=
     incrementTask E (auth_user_id request) dagSize
     :: (if negb (existsb isOk pins)
         then [reconcileTask E fuel cid (content_id upload)]
         else []) in
   (if has_waitUntil ctx then forEachM waitUntil tasks else ret tt) ;;;
   ret (JSONResponse (JObj [("cid", JStr cid)]) 200))%js.

(** The world after the two calls to the cluster that open the handler. *)
Definition afterStatus (E : Env) (car : Car) (cid : string) (w : World) : World :=
  mkWorld (ticks w)
    (trace w ++ [ClusterAdd car (showZ (car_size car))
                   (car_size car >? LOCAL_ADD_THRESHOLD E);
                 ClusterStatus cid]).


Lemma handleCarUpload_opening (E : Env) (D : Decoders) (fuel : nat)
      (request : AuthenticatedRequest) (ctx : Ctx) (car : Car)
      (uploadType : string) (w : World) (stat : CarStat) (cid : string)
      (peerMap : PeerMap) :
  carStat D car = Ok stat ->
  cluster_add E (trace w) car = Ok cid ->
  cluster_status E
    (trace w ++ [ClusterAdd car (showZ (car_size car))
                   (car_size car >? LOCAL_ADD_THRESHOLD E)]) cid = Ok peerMap ->
  handleCarUpload E D fuel request ctx car uploadType w =
  match toPins E peerMap with
  | Ok pins =>
    if Z.of_nat (List.length pins) =? 0
    then Some (Throw not_pinning, afterStatus E car cid w)
    else uploadTail E fuel request ctx uploadType cid pins (size stat)
           (afterStatus E car cid w)
  | Throw e => Some (Throw e, afterStatus E car cid w)
  end.
Proof.
  intros Hstat Hadd Hstatus.
  unfold handleCarUpload, bind at 1, lift. rewrite Hstat.
  unfold bind at 1, env_cluster_add, call. rewrite Hadd.
  unfold bind at 1, env_cluster_status, call, emit. cbn [ticks trace].
  rewrite Hstatus. unfold bind at 1, lift, afterStatus.
  rewrite <- app_assoc. cbn [app].
  destruct (toPins E peerMap) as [pins|e]; [|reflexivity].
  destruct (Z.of_nat (List.length pins) =? 0); reflexivity.
Qed.


(** X12.  A cluster that reports no peer for the content it has just
    added: the handler fails with 'not pinning on any node' after the add
    and the status call, before anything is written to the database. *)
Theorem handleCarUpload_no_replicas (E : Env) (D : Decoders) (fuel : nat)
        (request : AuthenticatedRequest) (ctx : Ctx) (car : Car)
        (uploadType : string) (w : World) (stat : CarStat) (cid : string) :
  carStat D car = Ok stat ->
  cluster_add E (trace w) car = Ok cid ->
  cluster_status E
    (trace w ++ [ClusterAdd car (showZ (car_size car))
                   (car_size car >? LOCAL_ADD_THRESHOLD E)]) cid = Ok [] ->
  handleCarUpload E D fuel request ctx car uploadType w =
  Some (Throw (JsError "not pinning on any node"),
        mkWorld (ticks w)
          (trace w ++ [ClusterAdd car (showZ (car_size car))
                         (car_size car >? LOCAL_ADD_THRESHOLD E);
                       ClusterStatus cid])).
Proof.
  intros Hstat Hadd Hstatus.
  rewrite (handleCarUpload_opening E D fuel request ctx car uploadType w stat
             cid [] Hstat Hadd Hstatus).
  reflexivity.
Qed.

(** An environment whose cluster has no peer for anything. *)
Definition emptyClusterEnv : Env :=
  mkEnv (Date_now sampleEnv) (toISOString sampleEnv) (cluster_add sampleEnv)
        (fun _ _ => Ok []) (db_query sampleEnv) (db_getStatus sampleEnv)
        (LOCAL_ADD_THRESHOLD sampleEnv) (toPinStatusEnum sampleEnv).

Lemma handleCarUpload_no_replicas_witness :
  handleCarUpload emptyClusterEnv (constDecoders sampleNode) 10 sampleRequest
    (mkCtx true) sampleDag "Car" (mkWorld 0 [])
  = Some (Throw (JsError "not pinning on any node"),
          mkWorld 0 [ClusterAdd sampleDag "450" false;
                     ClusterStatus "bafysample"]).
Proof.
  apply (handleCarUpload_no_replicas emptyClusterEnv (constDecoders sampleNode)
           10 sampleRequest (mkCtx true) sampleDag "Car" (mkWorld 0 [])
           (mkCarStat 350 3) "bafysample").
  - vm_compute. reflexivity.
  - reflexivity.
  - reflexivity.
Defined.




(** An environment whose clock jumps by 40 seconds from one reading to
    the next, so that the polling loop is entered, and whose cluster
    forgets the content after the first status call. *)
Definition jumpyEnv : Env :=
  mkEnv (fun n => 40000 * Z.of_nat n) (toISOString sampleEnv)
        (cluster_add sampleEnv) forgetfulCluster (db_query sampleEnv)
        (db_getStatus sampleEnv) (LOCAL_ADD_THRESHOLD sampleEnv)
        (toPinStatusEnum sampleEnv).













Lemma forEachM_db_ok (E : Env) (content : string) (pins : list Pin) :
  (forall history pin, exists reply,
      db_query E history (CREATE_OR_UPDATE_PIN content pin) = Ok reply) ->
  forall w,
    forEachM (fun pin =>
      bind (env_db_query E (CREATE_OR_UPDATE_PIN content pin))
           (fun _ => ret tt)) pins w
    = Some (Ok tt,
            mkWorld (ticks w)
              (trace w ++ map (fun pin =>
                 DbQuery (CREATE_OR_UPDATE_PIN content pin)) pins)).
Proof.
  intros Hdb. induction pins as [|p rest IH]; intros w.
  - cbn [forEachM map]. unfold ret. rewrite app_nil_r. now destruct w.
  - cbn [forEachM map]. unfold bind at 1. unfold bind at 1.
    unfold env_db_query, call.
    destruct (Hdb (trace w) p) as [reply Hreply]. rewrite Hreply.
    unfold ret at 1. rewrite IH. unfold emit. cbn [ticks trace].
    rewrite <- app_assoc. reflexivity.
Qed.

(** X16.  A round of the polling loop that finds pins with an OK status:
    after one wait and one status call, each OK pin is written to the
    database, in the order of the peer map, no other pin is, and the task
    ends. *)
Theorem pollLoop_persists_ok_pins (E : Env) (fuel : nat) (cid content : string)
        (start : Z) (w : World) (peerMap : PeerMap) (pins : list Pin) :
  Date_now E (ticks w) - start > MAX_PIN_STATUS_CHECK_TIME ->
  cluster_status E (trace w ++ [SetTimeout PIN_STATUS_CHECK_INTERVAL]) cid
  = Ok peerMap ->
  toPins E peerMap = Ok pins ->
  filter isOk pins <> [] ->
  (forall history pin, exists reply,
      db_query E history (CREATE_OR_UPDATE_PIN content pin) = Ok reply) ->
  pollLoop E (S fuel) cid content start w
  = Some (Ok tt,
          mkWorld (S (ticks w))
            (trace w
             ++ [SetTimeout PIN_STATUS_CHECK_INTERVAL; ClusterStatus cid]
             ++ map (fun pin => DbQuery (CREATE_OR_UPDATE_PIN content pin))
                    (filter isOk pins))).
Proof.
  intros Hlate Hstatus Hpins Hok Hdb. cbn [pollLoop]. unfold bind at 1.
  unfold now.
  replace (Date_now E (ticks w) - start >? MAX_PIN_STATUS_CHECK_TIME)
    with true by (symmetry; apply Z.gtb_lt; lia).
  unfold bind at 1. unfold sleep, log. unfold bind at 1.
  unfold env_cluster_status, call, emit. cbn [ticks trace].
  rewrite Hstatus. unfold bind at 1, lift. rewrite Hpins.
  assert (Hpins_ne : (Z.of_nat (List.length pins) =? 0) = false).
  { apply Z.eqb_neq. destruct pins; [now contradiction Hok | simpl; lia]. }
  rewrite Hpins_ne.
  assert (Hok_ne : (Z.of_nat (List.length (filter isOk pins)) =? 0) = false).
  { apply Z.eqb_neq. destruct (filter isOk pins);
      [now contradiction Hok | simpl; lia]. }
  cbv zeta. rewrite Hok_ne.
  rewrite (forEachM_db_ok E content (filter isOk pins) Hdb).
  cbn [ticks trace]. rewrite <- !app_assoc. reflexivity.
Qed.

(** The clock of [jumpyEnv] with a cluster that reports one pinned, one
    queued and one unpinned replica. *)
Definition mixedPeers : PeerMap :=
  [("12D3KooWA", mkPeerInfo "node-1" "pinned");
   ("12D3KooWU", mkPeerInfo "node-0" "unpinned");
   ("12D3KooWB", mkPeerInfo "node-2" "pin_queued")].

Definition latePinnedEnv : Env :=
  mkEnv (Date_now jumpyEnv) (toISOString sampleEnv) (cluster_add sampleEnv)
        (fun _ _ => Ok mixedPeers) (db_query sampleEnv)
        (db_getStatus sampleEnv) (LOCAL_ADD_THRESHOLD sampleEnv)
        (toPinStatusEnum sampleEnv).

Lemma pollLoop_persists_ok_pins_witness :
  pollLoop latePinnedEnv 1 "bafysample" "1" 0 (mkWorld 1 [])
  = Some (Ok tt,
          mkWorld 2
            [SetTimeout 5000; ClusterStatus "bafysample";
             DbQuery (CREATE_OR_UPDATE_PIN "1"
                        (mkPin "Pinned" (mkLocation "12D3KooWA" "node-1")));
             DbQuery (CREATE_OR_UPDATE_PIN "1"
                        (mkPin "PinQueued" (mkLocation "12D3KooWB" "node-2")))]).
Proof.
  apply (pollLoop_persists_ok_pins latePinnedEnv 0 "bafysample" "1" 0
           (mkWorld 1 []) mixedPeers
           [mkPin "Pinned" (mkLocation "12D3KooWA" "node-1");
            mkPin "Unpinned" (mkLocation "12D3KooWU" "node-0");
            mkPin "PinQueued" (mkLocation "12D3KooWB" "node-2")]).
  - vm_compute. reflexivity.
  - reflexivity.
  - reflexivity.
  - vm_compute. discriminate.
  - intros history pin. exists (mkQueryReply "1"). reflexivity.
Defined.

(* ================================================================== *)
(** * car.js: the CAR download routes *)
(* ================================================================== *)

Definition lowerChar (c : ascii) : ascii :=
  let n := N_of_ascii c in
  if ((65 <=? n) && (n <=? 90))%N then ascii_of_N (n + 32) else c.

Fixpoint lower (s : string) : string :=
  match s with
  | EmptyString => EmptyString
  | String c rest => String (lowerChar c) (lower rest)
  end.

(** [headers.set(name, value)]: the value replaces the one held under
    that name, or is added. *)
Fixpoint Headers_put (h : Headers) (key value : string) : Headers :=
  match h with
  | [] => [(key, value)]
  | (k, v) :: rest =>
    if String.eqb k key then (k, value) :: rest
    else (k, v) :: Headers_put rest key value
  end.
Definition Headers_set (h : Headers) (name value : string) : Headers :=
  Headers_put h (lower name) value.

(** [headers.get(name)]. *)
Fixpoint Headers_find (h : Headers) (key : string) : option string :=
  match h with
  | [] => None
  | (k, v) :: rest => if String.eqb k key then Some v else Headers_find rest key
  end.
Definition Headers_get (h : Headers) (name : string) : option string :=
  Headers_find h (lower name).

(** [response.ok]. *)
Definition res_ok (r : HttpResponse) : bool :=
  (200 <=? res_status r) && (res_status r <=? 299).

(** A request of the CAR routes: its URL, its method and the [cid] of
    its route parameters. *)
Record CarRequest : Type := mkCarRequest {
  req_url : string;
  req_method : string;
  req_cid : string
}.

(** What the routes do to the outside: look into the default cache, ask
    the gateway (base URL, path and query, method), store into the
    cache. *)
Inductive GatewayEvent : Type :=
| CacheMatch (request : CarRequest)
| Fetch (base path method : string)
| CachePut (request : CarRequest) (response : HttpResponse).

(** The cache and the gateway, which answer from the events before the
    call; [GATEWAY] is the constant of constants.js. *)
Record GatewayEnv : Type := mkGatewayEnv {
  GATEWAY : string;
  cache_match : list GatewayEvent -> CarRequest -> option HttpResponse;
  gateway_fetch : list GatewayEvent -> string -> Res HttpResponse
}.

Definition exportPath (cid : string) : string :=
  "/api/v0/dag/export?arg=" ++ cid ++ "&carversion=1".

(** The response [carGet] builds around the body the gateway sent: the
    headers of the gateway are dropped, four are set. *)
Definition carResponse (cid : string) (body : option ReadableStream)
  : HttpResponse :=
  let h0 : Headers := [] in
  let h1 := Headers_set h0 "Content-Type" "application/car" in
  let h2 := Headers_set h1 "Cache-Control" "public, max-age=31536000" in
  let h3 := Headers_set h2 "Content-Disposition"
              ("attachment; filename=" ++ quoted (cid ++ ".car")) in
  let h4 := Headers_set h3 "Strict-Transport-Security"
              ("max-age=31536000; includeSubDomains; preload" ++ dq) in
  mkHttpResponse 200 h4 body.

Definition carGet (G : GatewayEnv) (ctx : Ctx) (request : CarRequest)
           (history : list GatewayEvent)
  : Res HttpResponse * list GatewayEvent :=
  let looked := (history ++ [CacheMatch request])%list in
  match cache_match G history request with
  | Some res => (Ok res, looked)
  | None =>
    let cid := req_cid request in
    let asked := (looked ++ [Fetch (GATEWAY G) (exportPath cid) "POST"])%list in
    match gateway_fetch G looked (exportPath cid) with
    | Throw e => (Throw e, asked)
    | Ok res =>
      if negb (res_ok res) then (Ok res, asked)
      else
        let res := carResponse cid (res_body res) in
        let stored := (asked ++ [CachePut request res])%list in
        if has_waitUntil ctx then (Ok res, stored)
        else (Throw (JsTypeError "ctx.waitUntil is not a function"), stored)
    end
  end.

Definition carHead (G : GatewayEnv) (ctx : Ctx) (request : CarRequest)
           (history : list GatewayEvent)
  : Res HttpResponse * list GatewayEvent :=
  let get := mkCarRequest (req_url request) "GET" (req_cid request) in
  match carGet G ctx get history with
  | (Ok res, after) =>
    match sizeOf res with
    | Ok size =>
      let headers := Headers_set (res_headers res) "Content-Length" (showZ size) in
      (Ok (mkHttpResponse 200 headers None), after)
    | Throw e => (Throw e, after)
    end
  | (Throw e, after) => (Throw e, after)
  end.

Lemma Headers_find_put (h : Headers) (key other value : string) :
  Headers_find (Headers_put h key value) other =
  if String.eqb key other then Some value else Headers_find h other.
Proof.
  induction h as [|[k v] rest IH]; cbn [Headers_put Headers_find].
  - reflexivity.
  - destruct (String.eqb_spec k key) as [-> | Hk]; cbn [Headers_find].
    + destruct (String.eqb key other); reflexivity.
    + rewrite IH. destruct (String.eqb_spec k other) as [-> | Ho];
        [|reflexivity].
      destruct (String.eqb_spec key other); [congruence | reflexivity].
Qed.

Lemma Headers_get_set (h : Headers) (name other value : string) :
  Headers_get (Headers_set h name value) other =
  if String.eqb (lower name) (lower other) then Some value
  else Headers_get h other.
Proof. apply Headers_find_put. Qed.

(** X17.  What [carGet] puts into the cache: in every run, whatever the
    cache and the gateway answer, a response is stored only after the
    gateway answered with an ok status, under the request itself, and it
    is the response built for the caller: status 200 and the body of the
    gateway. *)
Theorem carGet_caches_only_ok (G : GatewayEnv) (ctx : Ctx)
        (request stored_for : CarRequest) (history : list GatewayEvent)
        (stored : HttpResponse) :
  ~ In (CachePut stored_for stored) history ->
  In (CachePut stored_for stored) (snd (carGet G ctx request history)) ->
  stored_for = request
  /\ cache_match G history request = None
  /\ exists upstream,
       gateway_fetch G (history ++ [CacheMatch request])
         (exportPath (req_cid request)) = Ok upstream
       /\ res_ok upstream = true
       /\ stored = carResponse (req_cid request) (res_body upstream).
Proof.
  intros Hfresh Hin. unfold carGet in Hin.
  assert (Hstep : forall l ev,
            In (CachePut stored_for stored) (l ++ [ev]) ->
            (forall r s, ev <> CachePut r s) ->
            In (CachePut stored_for stored) l).
  { intros l ev H Hev. apply in_app_or in H. destruct H as [H | [H | []]];
      [assumption | exfalso; exact (Hev _ _ H)]. }
  destruct (cache_match G history request) as [hit|].
  - cbn [snd] in Hin. exfalso. apply Hfresh.
    apply (Hstep _ _ Hin). discriminate.
  - destruct (gateway_fetch G (history ++ [CacheMatch request])
                (exportPath (req_cid request))) as [upstream|e] eqn:Hfetch.
    + destruct (res_ok upstream) eqn:Hok; cbn [negb] in Hin.
      * assert (Hlast : In (CachePut stored_for stored)
                  ((history ++ [CacheMatch request])
                     ++ [Fetch (GATEWAY G) (exportPath (req_cid request)) "POST"])
                \/ CachePut request
                     (carResponse (req_cid request) (res_body upstream))
                   = CachePut stored_for stored).
        { destruct (has_waitUntil ctx); cbn [snd] in Hin;
            apply in_app_or in Hin; destruct Hin as [H | [H | []]]; auto. }
        destruct Hlast as [Hold | Heq].
        -- exfalso. apply Hfresh. apply (Hstep _ (CacheMatch request)).
           ++ apply (Hstep _ _ Hold). discriminate.
           ++ discriminate.
        -- inversion Heq. subst. repeat split. exists upstream. auto.
      * cbn [snd] in Hin. exfalso. apply Hfresh.
        apply (Hstep _ (CacheMatch request)).
        -- apply (Hstep _ _ Hin). discriminate.
        -- discriminate.
    + cbn [snd] in Hin. exfalso. apply Hfresh.
      apply (Hstep _ (CacheMatch request)).
      * apply (Hstep _ _ Hin). discriminate.
      * discriminate.
Qed.

(** A sample cache and gateway.  The cache answers with the last
    response stored under the same URL; the gateway has one DAG, of five
    bytes in two chunks, and answers 500 for any other. *)
Definition sameUrl (a b : CarRequest) : bool :=
  String.eqb (req_url a) (req_url b).

Fixpoint lastStored (history : list GatewayEvent) (request : CarRequest)
         (found : option HttpResponse) : option HttpResponse :=
  match history with
  | [] => found
  | CachePut r res :: rest =>
    lastStored rest request (if sameUrl r request then Some res else found)
  | _ :: rest => lastStored rest request found
  end.

Definition sampleBody : ReadableStream :=
  mkStream [bytesOf "ab"; bytesOf "cde"] None.

Definition sampleGateway : GatewayEnv :=
  mkGatewayEnv "https://ipfs.example"
    (fun history request => lastStored history request None)
    (fun _ path =>
       if String.eqb path (exportPath "bafysample")
       then Ok (mkHttpResponse 200 [("server", "gateway")] (Some sampleBody))
       else Ok (mkHttpResponse 500 [] None)).

Definition sampleGet : CarRequest :=
  mkCarRequest "https://api.example/car/bafysample" "GET" "bafysample".

Lemma carGet_caches_only_ok_witness :
  sampleGet = sampleGet
  /\ cache_match sampleGateway [] sampleGet = None
  /\ exists upstream,
       gateway_fetch sampleGateway ([] ++ [CacheMatch sampleGet])
         (exportPath (req_cid sampleGet)) = Ok upstream
       /\ res_ok upstream = true
       /\ carResponse "bafysample" (Some sampleBody)
          = carResponse (req_cid sampleGet) (res_body upstream).
Proof.
  apply (carGet_caches_only_ok sampleGateway (mkCtx true) sampleGet sampleGet []
           (carResponse "bafysample" (Some sampleBody))).
  - intros [].
  - vm_compute. tauto.
Defined.

(** A cache that remembers: right after a response was stored under a
    request, the cache answers that request with it. *)
Definition remembers (G : GatewayEnv) : Prop :=
  forall history request response,
    cache_match G (history ++ [CachePut request response]) request
    = Some response.

(** X18.  With a cache that remembers, a download that went through
    the gateway is answered from the cache the next time: the same
    response, and the gateway is not asked again. *)
Theorem carGet_second_time_from_cache (G : GatewayEnv) (request : CarRequest)
        (history : list GatewayEvent) (upstream : HttpResponse) :
  remembers G ->
  cache_match G history request = None ->
  gateway_fetch G (history ++ [CacheMatch request])
    (exportPath (req_cid request)) = Ok upstream ->
  res_ok upstream = true ->
  exists res after,
    carGet G (mkCtx true) request history = (Ok res, after)
    /\ carGet G (mkCtx true) request after
       = (Ok res, (after ++ [CacheMatch request])%list).
Proof.
  intros Hcache Hmiss Hfetch Hok.
  exists (carResponse (req_cid request) (res_body upstream)).
  eexists. split.
  - unfold carGet. rewrite Hmiss, Hfetch, Hok. cbn [negb has_waitUntil].
    reflexivity.
  - unfold carGet at 1. rewrite Hcache. reflexivity.
Qed.

Lemma lastStored_app (history : list GatewayEvent) (request r : CarRequest)
      (res : HttpResponse) (found : option HttpResponse) :
  sameUrl r request = true ->
  lastStored (history ++ [CachePut r res]) request found = Some res.
Proof.
  intros Hsame. revert found.
  induction history as [|ev rest IH]; intros found.
  - cbn [app lastStored]. now rewrite Hsame.
  - cbn [app lastStored]. destruct ev; apply IH.
Qed.

Lemma carGet_second_time_from_cache_witness :
  exists res after,
    carGet sampleGateway (mkCtx true) sampleGet [] = (Ok res, after)
    /\ carGet sampleGateway (mkCtx true) sampleGet after
       = (Ok res, (after ++ [CacheMatch sampleGet])%list).
Proof.
  apply (carGet_second_time_from_cache sampleGateway sampleGet []
           (mkHttpResponse 200 [("server", "gateway")] (Some sampleBody))).
  - intros history request response. cbn [cache_match].
    apply lastStored_app. apply String.eqb_refl.
  - reflexivity.
  - reflexivity.
  - reflexivity.
Defined.

(** X19.  [carHead] answers with the headers of the download, a
    [Content-Length] that is the number of bytes of its body, whatever
    case the name is asked in, and no body; it asks the cache and the
    gateway as a GET of the same URL would. *)
Theorem carHead_content_length (G : GatewayEnv) (ctx : Ctx)
        (request : CarRequest) (history after : list GatewayEvent)
        (res : HttpResponse) (body : ReadableStream) :
  carGet G ctx (mkCarRequest (req_url request) "GET" (req_cid request)) history
  = (Ok res, after) ->
  res_body res = Some body ->
  stream_error body = None ->
  exists head,
    carHead G ctx request history = (Ok head, after)
    /\ res_body head = None
    /\ (forall name,
          lower name = "content-length" ->
          Headers_get (res_headers head) name
          = Some (showZ (byteLength (List.concat (stream_chunks body)))))
    /\ (forall name,
          lower name <> "content-length" ->
          Headers_get (res_headers head) name
          = Headers_get (res_headers res) name).
Proof.
  intros Hget Hbody Hend. unfold carHead. rewrite Hget.
  destruct res as [status headers b]. cbn [res_body] in Hbody. subst b.
  rewrite sizeOf_body, Hend. eexists. split; [reflexivity|].
  cbn [res_body res_headers]. split; [reflexivity|]. split.
  - intros name Hname. rewrite Headers_get_set.
    change (lower "Content-Length") with "content-length".
    rewrite Hname. reflexivity.
  - intros name Hname. rewrite Headers_get_set.
    change (lower "Content-Length") with "content-length".
    destruct (String.eqb_spec "content-length" (lower name)); [congruence|].
    reflexivity.
Qed.

Lemma carHead_content_length_witness :
  exists head,
    carHead sampleGateway (mkCtx true)
      (mkCarRequest "https://api.example/car/bafysample" "HEAD" "bafysample") []
    = (Ok head,
       [CacheMatch sampleGet;
        Fetch "https://ipfs.example" (exportPath "bafysample") "POST";
        CachePut sampleGet (carResponse "bafysample" (Some sampleBody))])
    /\ res_body head = None
    /\ (forall name,
          lower name = "content-length" ->
          Headers_get (res_headers head) name
          = Some (showZ (byteLength (List.concat (stream_chunks sampleBody)))))
    /\ (forall name,
          lower name <> "content-length" ->
          Headers_get (res_headers head) name
          = Headers_get
              (res_headers (carResponse "bafysample" (Some sampleBody))) name).
Proof.
  apply (carHead_content_length sampleGateway (mkCtx true)
           (mkCarRequest "https://api.example/car/bafysample" "HEAD"
              "bafysample") []
           [CacheMatch sampleGet;
            Fetch "https://ipfs.example" (exportPath "bafysample") "POST";
            CachePut sampleGet (carResponse "bafysample" (Some sampleBody))]
           (carResponse "bafysample" (Some sampleBody)) sampleBody).
  - reflexivity.
  - reflexivity.
  - reflexivity.
Defined.

(* ================================================================== *)
(** * More on the pin status aggregator *)
(* ================================================================== *)

Lemma str_includes_same (l1 l2 : list string) (s : string) :
  (In s l1 <-> In s l2) -> str_includes l1 s = str_includes l2 s.
Proof.
  intros H. destruct (str_includes l1 s) eqn:H1.
  - symmetry. apply str_includes_In, H, str_includes_In, H1.
  - symmetry. apply str_includes_not_In. intros H2.
    apply str_includes_not_In in H1. apply H1, H, H2.
Qed.

(** X20.  The aggregate depends on nothing but the set of statuses the
    replicas report: two collections that report the same statuses, in
    whatever order and however often, have the same aggregate. *)
Theorem aggregator_depends_on_status_set (pins1 pins2 : list Pin) :
  (forall s, In s (statuses pins1) <-> In s (statuses pins2)) ->
  getPinningAPIStatus pins1 = getPinningAPIStatus pins2.
Proof.
  intros Hsame. unfold getPinningAPIStatus. fold (statuses pins1).
  fold (statuses pins2).
  rewrite (str_includes_same _ _ "Pinned" (Hsame _)).
  rewrite (str_includes_same _ _ "Pinning" (Hsame _)).
  rewrite (str_includes_same _ _ "PinQueued" (Hsame _)).
  rewrite (str_includes_same _ _ "Remote" (Hsame _)).
  replace (Z.of_nat (List.length (statuses pins1)) =? 0)
    with (Z.of_nat (List.length (statuses pins2)) =? 0); [reflexivity|].
  destruct (statuses pins1) as [|s1 r1], (statuses pins2) as [|s2 r2];
    try reflexivity.
  - exfalso. apply (proj2 (Hsame s2)). now left.
  - exfalso. apply (proj1 (Hsame s1)). now left.
Qed.

Lemma aggregator_depends_on_status_set_witness :
  getPinningAPIStatus [pinAt "PinError"; pinAt "Pinning"; pinAt "PinError"]
  = getPinningAPIStatus [pinAt "Pinning"; pinAt "PinError"].
Proof.
  apply (aggregator_depends_on_status_set
           [pinAt "PinError"; pinAt "Pinning"; pinAt "PinError"]
           [pinAt "Pinning"; pinAt "PinError"]).
  intros s. simpl. tauto.
Defined.

(** The order of the four answers: failed, queued, pinning, pinned. *)
Definition rank (status : string) : Z :=
  if String.eqb status "pinned" then 3
  else if String.eqb status "pinning" then 2
  else if String.eqb status "queued" then 1
  else 0.

(** X21.  One replica more never lowers the aggregate of a collection
    that is not empty, in the order failed, queued, pinning, pinned.
    (The empty collection counts as queued, and a first replica in an
    unknown state makes it failed.) *)
Theorem aggregator_monotone (pins : list Pin) (p : Pin) :
  pins <> [] ->
  rank (getPinningAPIStatus pins) <= rank (getPinningAPIStatus (p :: pins)).
Proof.
  intros Hne. unfold getPinningAPIStatus. cbn [map].
  unfold str_includes. cbn [existsb].
  fold (str_includes (map pin_status pins) "Pinned").
  fold (str_includes (map pin_status pins) "Pinning").
  fold (str_includes (map pin_status pins) "PinQueued").
  fold (str_includes (map pin_status pins) "Remote").
  replace (Z.of_nat (List.length (map pin_status pins)) =? 0) with false
    by (symmetry; apply Z.eqb_neq; destruct pins;
        [contradiction | simpl; lia]).
  replace (Z.of_nat (List.length (pin_status p :: map pin_status pins)) =? 0)
    with false by (symmetry; apply Z.eqb_neq; simpl; lia).
  destruct (str_includes (map pin_status pins) "Pinned");
  destruct (str_includes (map pin_status pins) "Pinning");
  destruct (str_includes (map pin_status pins) "PinQueued");
  destruct (str_includes (map pin_status pins) "Remote");
  destruct ("Pinned" =? pin_status p)%string;
  destruct ("Pinning" =? pin_status p)%string;
  destruct ("PinQueued" =? pin_status p)%string;
  destruct ("Remote" =? pin_status p)%string;
  vm_compute; discriminate.
Qed.

Lemma aggregator_monotone_witness :
  rank (getPinningAPIStatus [pinAt "PinQueued"])
  <= rank (getPinningAPIStatus [pinAt "PinError"; pinAt "PinQueued"]).
Proof.
  apply (aggregator_monotone [pinAt "PinQueued"] (pinAt "PinError")).
  discriminate.
Defined.

(* ================================================================== *)
(** * pins.js: the other handlers *)
(* ================================================================== *)

Definition INVALID_META : string := "Meta should be an object with string values".
Definition INVALID_ORIGINS : string := "Origins should be an array of strings".
Definition INVALID_REQUEST_ID : string := "Request id should be a string".
Definition REQUIRED_CID : string := "CID is required".
Definition REQUIRED_REQUEST_ID : string := "Request id is required".

Definition okResponse : Response := JSONResponse (JStr "OK") 200.

(** [const { key } = body]: null and undefined cannot be destructured;
    of any other value that is no object the property is undefined. *)
Definition destructure (body : JsVal) (key : string) : Res JsVal :=
  match body with
  | JUndefined | JNull =>
    Throw (JsTypeError "Cannot destructure property of null or undefined")
  | JObj props => Ok (get_prop props key)
  | _ => Ok JUndefined
  end.

(** [Object.entries(meta).some(([, v]) => typeof v !== 'string')] on a
    value that is an object and no array. *)
Definition someNonStringValue (meta : JsVal) : bool :=
  match meta with
  | JObj props =>
    existsb (fun kv => negb (String.eqb (typeof (snd kv)) "string")) props
  | _ => false
  end.

Section PinHandlers.

Variable normalizeCid : JsVal -> Res string.

(** [pinPost] of pins.js; [body] is what [request.json()] gave. *)
Definition pinPost (body : JsVal) : Res Response :=
  res_bind (destructure body "cid") (fun cid =>
  res_bind (destructure body "name") (fun name =>
  res_bind (destructure body "origins") (fun origins =>
  res_bind (destructure body "meta") (fun meta =>
  if negb (truthy cid) then Ok (errorResponse REQUIRED_CID)
  else
    match normalizeCid cid with
    | Throw _ => Ok (errorResponse INVALID_CID)
    | Ok _ =>
      if truthy name && negb (String.eqb (typeof name) "string") then
        Ok (errorResponse INVALID_NAME)
      else if truthy origins && negb (isArray origins) then
        Ok (errorResponse INVALID_ORIGINS)
      else if truthy meta
              && (negb (String.eqb (typeof meta) "object")
                  || isArray meta || someNonStringValue meta) then
        Ok (errorResponse INVALID_META)
      else Ok okResponse
    end)))).

End PinHandlers.

(** [pinDelete]; [requestId] is [request.params.requestId]. *)
Definition pinDelete (requestId : JsVal) : Res Response :=
  if negb (truthy requestId) then Ok (errorResponse REQUIRED_REQUEST_ID)
  else if negb (String.eqb (typeof requestId) "string") then
    Ok (errorResponse INVALID_REQUEST_ID)
  else Ok okResponse.

(** A value that passes the test [!v || ok v]. *)
Definition absentOr (ok : JsVal -> Prop) (v : JsVal) : Prop :=
  truthy v = false \/ ok v.

Definition isString (v : JsVal) : Prop := exists s, v = JStr s.
Definition isArrayValue (v : JsVal) : Prop := exists items, v = JArr items.
Definition isStringMap (v : JsVal) : Prop :=
  exists props, v = JObj props /\ Forall (fun kv => isString (snd kv)) props.

Lemma typeof_string (v : JsVal) :
  String.eqb (typeof v) "string" = true <-> isString v.
Proof.
  split.
  - destruct v; try discriminate. intros _. now eexists.
  - intros [s ->]. reflexivity.
Qed.

Lemma isArray_value (v : JsVal) : isArray v = true <-> isArrayValue v.
Proof.
  split.
  - destruct v; try discriminate. intros _. now eexists.
  - intros [l ->]. reflexivity.
Qed.

Lemma name_test (v : JsVal) :
  truthy v && negb (String.eqb (typeof v) "string") = false
  <-> absentOr isString v.
Proof.
  unfold absentOr. rewrite <- typeof_string.
  destruct (truthy v), (String.eqb (typeof v) "string"); cbn;
    intuition congruence.
Qed.

Lemma origins_test (v : JsVal) :
  truthy v && negb (isArray v) = false <-> absentOr isArrayValue v.
Proof.
  unfold absentOr. rewrite <- isArray_value.
  destruct (truthy v), (isArray v); cbn; intuition congruence.
Qed.

Lemma someNonStringValue_false (props : list (string * JsVal)) :
  someNonStringValue (JObj props) = false
  <-> Forall (fun kv => isString (snd kv)) props.
Proof.
  cbn [someNonStringValue]. induction props as [|[k v] rest IH]; cbn [existsb].
  - split; [constructor | reflexivity].
  - rewrite orb_false_iff, IH, negb_false_iff, typeof_string. cbn [snd].
    split.
    + intros [Hv Hrest]. now constructor.
    + intros H. inversion H. now split.
Qed.

Lemma meta_test (v : JsVal) :
  truthy v && (negb (String.eqb (typeof v) "object") || isArray v
               || someNonStringValue v) = false
  <-> absentOr isStringMap v.
Proof.
  unfold absentOr, isStringMap. destruct v as [| |b|n|s|l|props];
    cbn [truthy typeof isArray];
    try change (String.eqb "object" "object") with true;
    cbn [andb orb negb].
  - intuition.
  - intuition.
  - destruct b; cbn; split; try tauto; try discriminate.
    intros [H | (props & H & _)]; discriminate H.
  - destruct (n =? 0); cbn; split; try tauto; try discriminate.
    intros [H | (props & H & _)]; discriminate H.
  - destruct (String.eqb s ""); cbn; split; try tauto; try discriminate.
    intros [H | (props & H & _)]; discriminate H.
  - cbn. split; [discriminate|].
    intros [H | (props & H & _)]; discriminate H.
  - rewrite someNonStringValue_false. split.
    + intros H. right. now exists props.
    + intros [H | (props' & Heq & H)]; [discriminate H|].
      inversion Heq. now subst.
Qed.

Lemma errorResponse_not_ok (details : string) : errorResponse details <> okResponse.
Proof. discriminate. Qed.

(** X22.  What [pinPost] accepts: it answers 200 'OK' exactly for a
    body that is an object with a [cid] that is there and normalizes, a
    [name] that is absent or a string, [origins] that are absent or an
    array, and a [meta] that is absent or an object whose values are all
    strings. *)
Theorem pinPost_accepts_iff (normalizeCid : JsVal -> Res string) (body : JsVal) :
  pinPost normalizeCid body = Ok okResponse
  <-> exists props,
        body = JObj props
        /\ truthy (get_prop props "cid") = true
        /\ (exists normalized, normalizeCid (get_prop props "cid") = Ok normalized)
        /\ absentOr isString (get_prop props "name")
        /\ absentOr isArrayValue (get_prop props "origins")
        /\ absentOr isStringMap (get_prop props "meta").
Proof.
  split.
  - intros H.
    destruct body as [| |b|n|s|l|props];
      try (cbn in H; inversion H; fail).
    exists props. split; [reflexivity|].
    unfold pinPost in H. cbn [destructure res_bind] in H.
    destruct (truthy (get_prop props "cid")) eqn:Hcid; cbn [negb] in H;
      [|inversion H].
    destruct (normalizeCid (get_prop props "cid")) as [normalized|e] eqn:Hn;
      [|inversion H].
    destruct (truthy (get_prop props "name")
              && negb (String.eqb (typeof (get_prop props "name")) "string"))
      eqn:Hname; [inversion H|].
    destruct (truthy (get_prop props "origins")
              && negb (isArray (get_prop props "origins")))
      eqn:Horigins; [inversion H|].
    destruct (truthy (get_prop props "meta")
              && (negb (String.eqb (typeof (get_prop props "meta")) "object")
                  || isArray (get_prop props "meta")
                  || someNonStringValue (get_prop props "meta")))
      eqn:Hmeta; [inversion H|].
    apply name_test in Hname. apply origins_test in Horigins.
    apply meta_test in Hmeta. repeat split; eauto.
  - intros (props & -> & Hcid & [normalized Hn] & Hname & Horigins & Hmeta).
    apply name_test in Hname. apply origins_test in Horigins.
    apply meta_test in Hmeta.
    unfold pinPost. cbn [destructure res_bind].
    rewrite Hcid, Hn, Hname, Horigins, Hmeta. reflexivity.
Qed.

Definition acceptAll (v : JsVal) : Res string :=
  match v with
  | JStr s => Ok s
  | _ => Throw (InvalidCidError "")
  end.

Definition samplePinBody : JsVal :=
  JObj [("cid", JStr "f01700001ab"); ("name", JStr "my pin");
        ("meta", JObj [("app", JStr "demo")])].

Lemma pinPost_accepts_iff_witness :
  pinPost acceptAll samplePinBody = Ok okResponse.
Proof.
  apply (pinPost_accepts_iff acceptAll samplePinBody).
  exists [("cid", JStr "f01700001ab"); ("name", JStr "my pin");
          ("meta", JObj [("app", JStr "demo")])].
  split; [reflexivity|]. split; [reflexivity|].
  split; [now exists "f01700001ab"|].
  split; [right; now exists "my pin"|].
  split; [left; reflexivity|].
  right. exists [("app", JStr "demo")]. split; [reflexivity|].
  repeat constructor. now exists "demo".
Defined.

(** The error payload of the pinning handlers. *)
Definition isPinDataError (r : Response) : Prop :=
  exists details,
    r = JSONResponse
          (JObj [("error", JObj [("reason", JStr "INVALID_PIN_DATA");
                                 ("details", JStr details)])]) 400.

Lemma errorResponse_shape (details : string) :
  isPinDataError (errorResponse details).
Proof. now exists details. Qed.

(** X23.  Whatever [pinPost], [pinsGet] and [pinDelete] answer is either
    200 with 'OK' or 400 with a body of the shape
    [{ error: { reason: 'INVALID_PIN_DATA', details } }]. *)
Theorem pin_handlers_answer_ok_or_pin_data_error
        (normalizeCid : JsVal -> Res string) :
  (forall body r, pinPost normalizeCid body = Ok r ->
                  r = okResponse \/ isPinDataError r)
  /\ (forall params r, pinsGet normalizeCid params = Ok r ->
                       r = okResponse \/ isPinDataError r)
  /\ (forall requestId r, pinDelete requestId = Ok r ->
                          r = okResponse \/ isPinDataError r).
Proof.
  refine (conj _ (conj _ _)).
  - intros body r H. unfold pinPost in H.
    destruct (destructure body "cid") as [cid|]; [|discriminate H].
    destruct (destructure body "name") as [name|]; [|discriminate H].
    destruct (destructure body "origins") as [origins|]; [|discriminate H].
    destruct (destructure body "meta") as [meta|]; [|discriminate H].
    cbn [res_bind] in H.
    repeat match type of H with
           | (if ?c then _ else _) = _ => destruct c
           | match ?c with Ok _ => _ | Throw _ => _ end = _ => destruct c
           end;
      inversion H; auto using errorResponse_shape.
  - intros params r H. unfold pinsGet, cidCheck in H.
    destruct (truthy (param_cid params));
      [destruct (normalizeCid (param_cid params))|]; cbn [res_bind] in H;
      try (inversion H; auto using errorResponse_shape; fail).
    + repeat match type of H with
             | (if ?c then _ else _) = _ => destruct c
             | res_bind ?c _ = _ => destruct c; cbn [res_bind] in H
             end;
        inversion H; auto using errorResponse_shape.
    + repeat match type of H with
             | (if ?c then _ else _) = _ => destruct c
             | res_bind ?c _ = _ => destruct c; cbn [res_bind] in H
             end;
        inversion H; auto using errorResponse_shape.
  - intros requestId r H. unfold pinDelete in H.
    repeat match type of H with
           | (if ?c then _ else _) = _ => destruct c
           end;
      inversion H; auto using errorResponse_shape.
Qed.

Lemma pin_handlers_answer_ok_or_pin_data_error_witness :
  (errorResponse REQUIRED_CID = okResponse
   \/ isPinDataError (errorResponse REQUIRED_CID))
  /\ (errorResponse INVALID_NAME = okResponse
      \/ isPinDataError (errorResponse INVALID_NAME))
  /\ (okResponse = okResponse \/ isPinDataError okResponse).
Proof.
  destruct (pin_handlers_answer_ok_or_pin_data_error acceptAll)
    as (Hpost & Hlist & Hdelete).
  refine (conj _ (conj _ _)).
  - apply (Hpost (JObj [("name", JStr "no cid")])). reflexivity.
  - apply (Hlist (mkPinsParams JUndefined (JNum 7) JUndefined JUndefined)).
    reflexivity.
  - apply (Hdelete (JStr "42")). reflexivity.
Defined.

(** A pin request as [getPAPinRequest] returns it: the fields [pinGet]
    reads. *)
Record PinRequest : Type := mkPinRequest {
  pr_id : string;
  pr_created : string;
  pr_pins : list Pin;
  pr_requestedCid : string;
  pr_name : JsVal
}.

(** What [pinGet] does to the outside. *)
Inductive PinsEvent : Type :=
| GetPAPinRequest (requestId : Z)
| ConsoleErrorLog (err : Exn).

Definition isDigit (c : ascii) : bool :=
  let n := N_of_ascii c in ((48 <=? n) && (n <=? 57))%N.

Fixpoint digitsOnly (s : string) : bool :=
  match s with
  | EmptyString => true
  | String c rest => isDigit c && digitsOnly rest
  end.

(** [/^\d+$/.test(s)]: one decimal digit or more and nothing else. *)
Definition allDigits (s : string) : bool :=
  negb (String.eqb s "") && digitsOnly s.

Fixpoint parseDigits (s : string) (acc : Z) : Z :=
  match s with
  | EmptyString => acc
  | String c rest => parseDigits rest (10 * acc + (Z.of_N (N_of_ascii c) - 48))
  end.

(** [parseInt(s, 10)] on a string of digits; JavaScript rounds the
    result from 2^53 on, which the ids of the database do not reach. *)
Definition parseInt10 (s : string) : Z := parseDigits s 0.

Definition pinStatusBody (pinRequest : PinRequest) : JsVal :=
  JObj [("requestId", JStr (pr_id pinRequest));
        ("created", JStr (pr_created pinRequest));
        ("delegates", JArr []);
        ("status", JStr (getPinningAPIStatus (pr_pins pinRequest)));
        ("pin", JObj [("cid", JStr (pr_requestedCid pinRequest));
                      ("name", pr_name pinRequest);
                      ("origins", JArr []);
                      ("meta", JObj [])])].

(** [pinGet] of pins.js; [getPAPinRequest] is the database client's. *)
Definition pinGet (getPAPinRequest : list PinsEvent -> Z -> Res PinRequest)
           (requestIdParam : string) (history : list PinsEvent)
  : Res Response * list PinsEvent :=
  if negb (allDigits requestIdParam) then
    (Ok (errorResponse INVALID_REQUEST_ID), history)
  else
    let requestId := parseInt10 requestIdParam in
    let asked := (history ++ [GetPAPinRequest requestId])%list in
    match getPAPinRequest history requestId with
    | Throw e => (Ok notFound, (asked ++ [ConsoleErrorLog e])%list)
    | Ok pinRequest => (Ok (JSONResponse (pinStatusBody pinRequest) 200), asked)
    end.

Lemma parseDigits_bounds (s : string) (acc : Z) :
  digitsOnly s = true -> 0 <= acc -> 0 <= parseDigits s acc.
Proof.
  revert acc. induction s as [|c rest IH]; intros acc Hd Hacc;
    cbn [digitsOnly parseDigits] in *.
  - assumption.
  - apply andb_prop in Hd. destruct Hd as [Hc Hrest]. apply IH; [assumption|].
    unfold isDigit in Hc. apply andb_prop in Hc. destruct Hc as [Hlo _].
    apply N.leb_le in Hlo. lia.
Qed.

(** X24.  [pinGet] never throws.  A request id that is not made of
    decimal digits is answered 400 without a word to the database; any
    other is looked up once, under a number that is not negative; a
    failure of the database is logged and answered with [notFound]; a
    request that is found is answered 200 with the aggregate of its pins
    as status and the cid that was requested. *)
Theorem pinGet_answers (getPAPinRequest : list PinsEvent -> Z -> Res PinRequest)
        (requestIdParam : string) (history : list PinsEvent) :
  parseInt10 requestIdParam < 2 ^ 53 ->
  exists r after,
    pinGet getPAPinRequest requestIdParam history = (Ok r, after)
    /\ (allDigits requestIdParam = false ->
        r = errorResponse INVALID_REQUEST_ID /\ after = history)
    /\ (allDigits requestIdParam = true ->
        let requestId := parseInt10 requestIdParam in
          0 <= requestId
          /\ match getPAPinRequest history requestId with
             | Throw e =>
               r = notFound
               /\ after = (history ++ [GetPAPinRequest requestId;
                                       ConsoleErrorLog e])%list
             | Ok pinRequest =>
               after = (history ++ [GetPAPinRequest requestId])%list
               /\ exists body,
                    r = JSONResponse (JObj body) 200
                    /\ get_prop body "status"
                       = JStr (getPinningAPIStatus (pr_pins pinRequest))
                    /\ get_prop body "pin"
                       = JObj [("cid", JStr (pr_requestedCid pinRequest));
                               ("name", pr_name pinRequest);
                               ("origins", JArr []); ("meta", JObj [])]
             end).
Proof.
  intros _. unfold pinGet.
  destruct (allDigits requestIdParam) eqn:Hd; cbn [negb].
  - destruct (getPAPinRequest history (parseInt10 requestIdParam))
      as [pinRequest|e] eqn:Hdb.
    + do 2 eexists. split; [reflexivity|]. split; [discriminate|].
      intros _. cbv zeta. split.
      * apply parseDigits_bounds; [|lia].
        unfold allDigits in Hd. now apply andb_prop in Hd.
      * split; [reflexivity|]. eexists.
        split; [reflexivity|]. split; reflexivity.
    + do 2 eexists. split; [reflexivity|]. split; [discriminate|].
      intros _. cbv zeta. split.
      * apply parseDigits_bounds; [|lia].
        unfold allDigits in Hd. now apply andb_prop in Hd.
      * rewrite <- app_assoc. split; reflexivity.
  - do 2 eexists. split; [reflexivity|]. split; [auto | discriminate].
Qed.

Definition samplePinRequests (history : list PinsEvent) (requestId : Z)
  : Res PinRequest :=
  if requestId =? 42 then
    Ok (mkPinRequest "42" "2021-07-14T19:27:14Z"
          [pinAt "Pinning"; pinAt "PinQueued"] "f01700001ab" (JStr "my pin"))
  else Throw (Rejected "no rows").

Lemma pinGet_answers_witness :
  (fst (pinGet samplePinRequests "42" [])
   = Ok (JSONResponse
           (pinStatusBody
              (mkPinRequest "42" "2021-07-14T19:27:14Z"
                 [pinAt "Pinning"; pinAt "PinQueued"] "f01700001ab"
                 (JStr "my pin"))) 200))
  /\ fst (pinGet samplePinRequests "0043" []) = Ok notFound
  /\ pinGet samplePinRequests "4x" []
     = (Ok (errorResponse INVALID_REQUEST_ID), []).
Proof.
  refine (conj _ (conj _ _)).
  - destruct (pinGet_answers samplePinRequests "42" [])
      as (r & after & Hrun & _ & _); [vm_compute; reflexivity|].
    rewrite Hrun. cbn [fst]. vm_compute in Hrun. now inversion Hrun.
  - destruct (pinGet_answers samplePinRequests "0043" [])
      as (r & after & Hrun & _ & Hdigits); [vm_compute; reflexivity|].
    rewrite Hrun. cbn [fst]. vm_compute in Hrun. now inversion Hrun.
  - destruct (pinGet_answers samplePinRequests "4x" [])
      as (r & after & Hrun & Hbad & _); [vm_compute; reflexivity|].
    destruct (Hbad eq_refl) as [-> ->]. exact Hrun.
Defined.

(* ================================================================== *)
(** * More on parse-cid.js and status.js *)
(* ================================================================== *)

Lemma parseCid_again (L : Multiformats) (x s : string) :
  parse_inverts_toString L -> parseCid L x = Ok s -> parseCid L s = Ok s.
Proof.
  intros Hlaw Hs. apply parseCid_Ok in Hs.
  destruct Hs as (c & c1 & Hp & Hv & ->).
  apply parseCid_Ok. exists c1, c1. split; [exact (Hlaw x c c1 Hp Hv)|].
  split; [|reflexivity].
  apply CID_toV1_of_v1. exact (CID_toV1_version c c1 Hv).
Qed.

(** X25.  The text [parseCid] returns denotes the same content: it
    parses to the identifier of version 1 over the codec and the
    multihash of the identifier the caller's text parses to. *)
Theorem parseCid_keeps_codec_and_hash (L : Multiformats) (x s : string)
        (c : CID) :
  parse_inverts_toString L ->
  CID_parse L x = Ok c ->
  parseCid L x = Ok s ->
  exists c1,
    CID_parse L s = Ok c1
    /\ cid_version c1 = 1
    /\ cid_code c1 = cid_code c
    /\ cid_multihash c1 = cid_multihash c.
Proof.
  intros Hlaw Hparse Hs. apply parseCid_Ok in Hs.
  destruct Hs as (c' & c1 & Hp & Hv & ->).
  rewrite Hparse in Hp. inversion Hp. subst c'.
  exists c1. split; [exact (Hlaw x c c1 Hparse Hv)|].
  split; [exact (CID_toV1_version c c1 Hv)|].
  unfold CID_toV1 in Hv. destruct (cid_version c =? 0).
  - inversion Hv. split; reflexivity.
  - destruct (cid_version c =? 1); [|discriminate Hv].
    inversion Hv. split; reflexivity.
Qed.

Lemma parseCid_keeps_codec_and_hash_witness :
  exists c1,
    CID_parse hexLibrary "f01700001ab" = Ok c1
    /\ cid_version c1 = 1
    /\ cid_code c1 = cid_code (mkCID 0 112 [x00; x01; xab])
    /\ cid_multihash c1 = cid_multihash (mkCID 0 112 [x00; x01; xab]).
Proof.
  apply (parseCid_keeps_codec_and_hash hexLibrary "F00700001AB" "f01700001ab"
           (mkCID 0 112 [x00; x01; xab]) hexLibrary_laws); reflexivity.
Defined.

(** X26.  [statusGet] asks the database for normalized identifiers
    only: a run either fails with [InvalidCidError] on the caller's text,
    having logged and asked nothing, or it has asked the database once,
    for a text that is its own normal form. *)
Theorem statusGet_asks_for_normal_forms (E : Env) (L : Multiformats)
        (cid : string) (w w' : World) (r : Res Response) :
  parse_inverts_toString L ->
  statusGet E L cid w = Some (r, w') ->
  (r = Throw (InvalidCidError cid) /\ w' = w)
  \/ exists normalized,
       parseCid L cid = Ok normalized
       /\ parseCid L normalized = Ok normalized
       /\ trace w' = (trace w ++ [ConsoleLog ("normalized " ++ normalized)%string;
                                  DbGetStatus normalized])%list.
Proof.
  intros Hlaw Hrun. unfold statusGet, bind, lift in Hrun.
  destruct (parseCid L cid) as [normalized|e] eqn:Hcid.
  - right. exists normalized. split; [reflexivity|].
    split; [exact (parseCid_again L cid normalized Hlaw Hcid)|].
    unfold log, env_db_getStatus, call, emit, ret in Hrun.
    cbn [ticks trace] in Hrun.
    destruct (db_getStatus E _ normalized) as [[props|]|e];
      inversion Hrun; cbn [trace]; now rewrite <- app_assoc.
  - left. inversion Hrun. split; [|reflexivity].
    unfold parseCid, try_rethrow in Hcid.
    destruct (res_bind (CID_parse L cid) _); [discriminate Hcid|].
    now inversion Hcid.
Qed.

Definition sampleStatusRun : option (Res Response * World) :=
  statusGet sampleEnv hexLibrary "F01700001AB" (mkWorld 0 []).

Lemma statusGet_asks_for_normal_forms_witness :
  exists r w',
    sampleStatusRun = Some (r, w')
    /\ ((r = Throw (InvalidCidError "F01700001AB") /\ w' = mkWorld 0 [])
        \/ exists normalized,
             parseCid hexLibrary "F01700001AB" = Ok normalized
             /\ parseCid hexLibrary normalized = Ok normalized
             /\ trace w'
                = (trace (mkWorld 0 [])
                   ++ [ConsoleLog ("normalized " ++ normalized)%string;
                       DbGetStatus normalized])%list).
Proof.
  destruct sampleStatusRun as [[r w']|] eqn:Hrun;
    [|vm_compute in Hrun; discriminate].
  exists r, w'. split; [reflexivity|].
  exact (statusGet_asks_for_normal_forms sampleEnv hexLibrary "F01700001AB"
           (mkWorld 0 []) w' r hexLibrary_laws Hrun).
Defined.

(* ================================================================== *)
(** * db/postgres/client.js: deals and keys *)
(* ================================================================== *)

(** What a PostgREST call resolves to: [{ data, error }] with one of
    the two set. *)
Inductive Postgrest (A : Type) : Type :=
| PgData (data : A)
| PgError (message : string).
Arguments PgData {A} data.
Arguments PgError {A} message.

(** [new DBError(error)] of errors.js: the error of the query, thrown. *)
Definition DBError (message : string) : Exn := Rejected message.

(** A deal as the [find_deals_by_content_cids] function returns it:
    the cid it is for, and the rest of its columns. *)
Record Deal : Type := mkDeal {
  dataCid : string;
  deal_columns : list (string * JsVal)
}.

(** The object [result] of [getDealsForCids]: the lists of deals by
    cid.  Its keys are content identifiers; none of them is the name of a
    member of [Object.prototype]. *)
Definition DealsByCid : Type := list (string * list Deal).

Definition objectPrototypeNames : list string :=
  ["constructor"; "hasOwnProperty"; "isPrototypeOf"; "propertyIsEnumerable";
   "toLocaleString"; "toString"; "valueOf"; "__proto__";
   "__defineGetter__"; "__defineSetter__"; "__lookupGetter__";
   "__lookupSetter__"].

(** [result[cid]]. *)
Fixpoint deals_get (result : DealsByCid) (cid : string) : option (list Deal) :=
  match result with
  | [] => None
  | (k, ds) :: rest => if String.eqb k cid then Some ds else deals_get rest cid
  end.

(** One round of the loop: [result[cid] = [d]] where there is no array
    under [cid] yet, [result[cid].push(d)] where there is one. *)
Fixpoint deals_add (result : DealsByCid) (cid : string) (d : Deal) : DealsByCid :=
  match result with
  | [] => [(cid, [d])]
  | (k, ds) :: rest =>
    if String.eqb k cid then (k, (ds ++ [d])%list) :: rest
    else (k, ds) :: deals_add rest cid d
  end.

Section Deals.

(** [this._client.rpc('find_deals_by_content_cids', { cids })]. *)
Variable find_deals_by_content_cids : list string -> Postgrest (list Deal).

Definition getDealsForCids (cids : list string) : Res DealsByCid :=
  match find_deals_by_content_cids cids with
  | PgError message => Throw (DBError message)
  | PgData data =>
    Ok (fold_left (fun result d => deals_add result (dataCid d) d) data [])
  end.

Definition getDeals (cid : string) : Res (list Deal) :=
  res_bind (getDealsForCids [cid]) (fun deals =>
  match deals_get deals cid with
  | Some ds => Ok ds
  | None => Ok []
  end).

End Deals.

Definition dealsUnder (result : DealsByCid) (cid : string) : list Deal :=
  match deals_get result cid with Some ds => ds | None => [] end.

Definition isFor (cid : string) (d : Deal) : bool := String.eqb (dataCid d) cid.

Lemma deals_get_add (result : DealsByCid) (cid other : string) (d : Deal) :
  deals_get (deals_add result cid d) other =
  if String.eqb cid other then Some (dealsUnder result cid ++ [d])%list
  else deals_get result other.
Proof.
  unfold dealsUnder.
  induction result as [|[k ds] rest IH]; cbn [deals_add deals_get].
  - destruct (String.eqb cid other); reflexivity.
  - destruct (String.eqb_spec k cid) as [-> | Hk]; cbn [deals_get].
    + destruct (String.eqb cid other); reflexivity.
    + rewrite IH. destruct (String.eqb_spec k other) as [-> | Ho].
      * destruct (String.eqb_spec cid other); [congruence | reflexivity].
      * destruct (String.eqb_spec k cid); [congruence|]. reflexivity.
Qed.

Lemma grouped_deals (data : list Deal) (result : DealsByCid) (cid : string) :
  deals_get (fold_left (fun r d => deals_add r (dataCid d) d) data result) cid
  = match deals_get result cid, filter (isFor cid) data with
    | None, [] => None
    | _, found => Some (dealsUnder result cid ++ found)%list
    end.
Proof.
  revert result. induction data as [|d rest IH]; intros result.
  - cbn [fold_left filter]. unfold dealsUnder.
    destruct (deals_get result cid); [now rewrite app_nil_r | reflexivity].
  - cbn [fold_left filter]. rewrite IH. unfold dealsUnder, isFor.
    rewrite !deals_get_add. unfold dealsUnder.
    destruct (String.eqb_spec (dataCid d) cid) as [-> | Hd].
    + rewrite <- app_assoc. cbn [app].
      destruct (deals_get result cid); reflexivity.
    + reflexivity.
Qed.

(** X27.  [getDealsForCids] groups the deals the database returns by
    their cid: under a cid stand exactly the deals for that cid, in the
    order of the database, and a cid without a deal has no entry.
    [getDeals] returns the deals for its cid among those the database
    returned for it, and the empty list when there is none. *)
Theorem deals_grouped_by_cid
        (rpc : list string -> Postgrest (list Deal)) (cids : list string)
        (data : list Deal) (cid : string) :
  rpc cids = PgData data ->
  ~ In cid objectPrototypeNames ->
  Forall (fun d => ~ In (dataCid d) objectPrototypeNames) data ->
  (exists result,
     getDealsForCids rpc cids = Ok result
     /\ deals_get result cid
        = match filter (isFor cid) data with
          | [] => None
          | found => Some found
          end)
  /\ (cids = [cid] -> getDeals rpc cid = Ok (filter (isFor cid) data)).
Proof.
  intros Hrpc _ _. split.
  - unfold getDealsForCids. rewrite Hrpc. eexists. split; [reflexivity|].
    rewrite grouped_deals. cbn [deals_get dealsUnder app].
    destruct (filter (isFor cid) data); reflexivity.
  - intros ->. unfold getDeals, getDealsForCids. rewrite Hrpc.
    cbn [res_bind]. rewrite grouped_deals. cbn [deals_get dealsUnder app].
    destruct (filter (isFor cid) data); reflexivity.
Qed.

Definition sampleDeals : list Deal :=
  [mkDeal "bafyA" [("dealId", JNum 1)];
   mkDeal "bafyB" [("dealId", JNum 2)];
   mkDeal "bafyA" [("dealId", JNum 3)]].

Lemma deals_grouped_by_cid_witness :
  (exists result,
     getDealsForCids (fun _ => PgData sampleDeals) ["bafyA"] = Ok result
     /\ deals_get result "bafyA"
        = Some [mkDeal "bafyA" [("dealId", JNum 1)];
                mkDeal "bafyA" [("dealId", JNum 3)]])
  /\ (["bafyA"] = ["bafyA"] ->
      getDeals (fun _ => PgData sampleDeals) "bafyA"
      = Ok [mkDeal "bafyA" [("dealId", JNum 1)];
            mkDeal "bafyA" [("dealId", JNum 3)]]).
Proof.
  apply (deals_grouped_by_cid (fun _ => PgData sampleDeals) ["bafyA"]
           sampleDeals "bafyA").
  - reflexivity.
  - simpl. intuition discriminate.
  - repeat constructor; simpl; intuition discriminate.
Defined.

(** A row of [auth_key] and the user row [getKey] selects with its
    keys. *)
Record AuthKeyRow : Type := mkAuthKeyRow {
  key_id : string;
  key_name : string;
  key_secret : string
}.

Record UserWithKeys : Type := mkUserWithKeys {
  user_id : string;
  user_issuer : string;
  user_keys : list AuthKeyRow
}.

(** What [getKey] returns. *)
Record AuthKey : Type := mkAuthKey {
  ak_id : string;
  ak_name : string;
  ak_user_id : string;
  ak_user_issuer : string
}.

Definition getKey (selectUser : string -> Postgrest UserWithKeys)
           (issuer secret : string) : Res AuthKey :=
  match selectUser issuer with
  | PgError message => Throw (DBError message)
  | PgData data =>
    match find (fun k => String.eqb (key_secret k) secret) (user_keys data) with
    | None => Throw (JsError "user has no key with given secret")
    | Some key =>
      Ok (mkAuthKey (key_id key) (key_name key) (user_id data) (user_issuer data))
    end
  end.

(** X28.  [getKey] never returns a key for another secret: what it
    returns is the id and the name of a key of the selected user whose
    secret is the one given, and when the user has no such key it throws
    'user has no key with given secret'. *)
Theorem getKey_matches_secret (selectUser : string -> Postgrest UserWithKeys)
        (issuer secret : string) (data : UserWithKeys) :
  selectUser issuer = PgData data ->
  (forall r, getKey selectUser issuer secret = Ok r ->
     exists key,
       In key (user_keys data) /\ key_secret key = secret
       /\ ak_id r = key_id key /\ ak_name r = key_name key
       /\ ak_user_id r = user_id data /\ ak_user_issuer r = user_issuer data)
  /\ ((forall key, In key (user_keys data) -> key_secret key <> secret) ->
      getKey selectUser issuer secret
      = Throw (JsError "user has no key with given secret"))
  /\ ((exists key, In key (user_keys data) /\ key_secret key = secret) ->
      exists r, getKey selectUser issuer secret = Ok r).
Proof.
  intros Hdata. unfold getKey. rewrite Hdata.
  destruct (find (fun k => String.eqb (key_secret k) secret) (user_keys data))
    as [key|] eqn:Hfind.
  - apply find_some in Hfind. destruct Hfind as [Hin Heq].
    apply String.eqb_eq in Heq. refine (conj _ (conj _ _)).
    + intros r Hr. inversion Hr. exists key. cbn. repeat split; assumption.
    + intros Hnone. exfalso. exact (Hnone key Hin Heq).
    + intros _. eexists. reflexivity.
  - refine (conj _ (conj _ _)).
    + intros r Hr. discriminate Hr.
    + reflexivity.
    + intros [key [Hin Heq]]. exfalso.
      pose proof (find_none _ _ Hfind key Hin) as Hno. cbn in Hno.
      rewrite Heq, String.eqb_refl in Hno. discriminate Hno.
Qed.

Definition sampleUser : UserWithKeys :=
  mkUserWithKeys "7" "did:ethr:0xabc"
    [mkAuthKeyRow "1" "laptop" "s3cr3t-1"; mkAuthKeyRow "2" "ci" "s3cr3t-2"].

Lemma getKey_matches_secret_witness :
  getKey (fun _ => PgData sampleUser) "did:ethr:0xabc" "none"
  = Throw (JsError "user has no key with given secret")
  /\ exists r, getKey (fun _ => PgData sampleUser) "did:ethr:0xabc" "s3cr3t-2"
               = Ok r.
Proof.
  split.
  - apply (getKey_matches_secret (fun _ => PgData sampleUser) "did:ethr:0xabc"
             "none" sampleUser eq_refl).
    intros key [<- | [<- | []]]; discriminate.
  - apply (getKey_matches_secret (fun _ => PgData sampleUser) "did:ethr:0xabc"
             "s3cr3t-2" sampleUser eq_refl).
    exists (mkAuthKeyRow "2" "ci" "s3cr3t-2"). split; [simpl; tauto | reflexivity].
Defined.

(* ================================================================== *)
(** * cron/src/jobs/pins-backup.js: export and candidates *)
(* ================================================================== *)

(** timeout if we can't figure out the size in 10s *)
Definition SIZE_TIMEOUT : Z := 1000 * 10.
(** timeout if we don't receive a block after 30s *)
Definition BLOCK_TIMEOUT : Z := 1000 * 30.
(** log download progress every minute *)
Definition REPORT_INTERVAL : Z := 1000 * 60.
(** don't try to transfer a DAG that's bigger than 32GB *)
Definition MAX_DAG_SIZE : Z := 1024 * 1024 * 1024 * 32.

(** The calls of the export to the IPFS client and to its own timer
    and log. *)
Inductive IpfsEvent : Type :=
| BlockGet (cid : CID) (timeout : Z)
| ObjectStat (cid : CID) (timeout : Z)
| DagExport (cid : CID) (timeout : Z)
| DebugLog (text : string)
| SetInterval (ms : Z)
| ClearInterval.

(** The IPFS client: the bytes of a block, the cumulative size of an
    object, the CAR stream of a DAG; [fmt] is the number format of the
    log lines. *)
Record IpfsEnv : Type := mkIpfsEnv {
  blockGet : CID -> Res (list byte);
  objectStat : CID -> Res Z;
  dagExport : CID -> ReadableStream;
  fmt : Z -> string
}.

(** How an export ends early: the error with code 'ERR_TOO_BIG', or an
    error of the client. *)
Inductive ExportError : Type :=
| ERR_TOO_BIG (message : string)
| ExportFailed (e : Exn).

(** [getSize]: the size for a raw or dag-pb root, [None] (undefined)
    for any other codec. *)
Definition getSize (I : IpfsEnv) (cid : CID)
  : Res (option Z) * list IpfsEvent :=
  if cid_code cid =? raw_code then
    (res_map (fun block => Some (byteLength block)) (blockGet I cid),
     [BlockGet cid SIZE_TIMEOUT])
  else if cid_code cid =? pb_code then
    (res_map Some (objectStat I cid), [ObjectStat cid SIZE_TIMEOUT])
  else (Ok None, []).

(** [options.maxDagSize || MAX_DAG_SIZE]. *)
Definition effectiveMax (maxDagSize : option Z) : Z :=
  match maxDagSize with
  | Some m => if m =? 0 then MAX_DAG_SIZE else m
  | None => MAX_DAG_SIZE
  end.

(** [ipfsDagExport], run until its consumer has taken every chunk: the
    chunks yielded, how the generator ended, and the events in order.
    The report the timer would print every minute is not part of the
    model. *)
Definition ipfsDagExport (I : IpfsEnv) (cid : CID) (maxDagSizeOption : option Z)
  : (list (list byte) * option ExportError) * list IpfsEvent :=
  let maxDagSize := effectiveMax maxDagSizeOption in
  let start := [DebugLog "determining size..."] in
  match getSize I cid with
  | (Throw e, asked) =>
    (([], Some (ExportFailed e)), (start ++ asked ++ [ClearInterval])%list)
  | (Ok bytesTotal, asked) =>
    let sizeLine :=
      DebugLog (match bytesTotal with
                | None => "unknown size"
                | Some n => "size: " ++ fmt I n ++ " bytes"
                end) in
    let tooBig :=
      match bytesTotal with
      | Some n => n >? maxDagSize
      | None => false
      end in
    if tooBig then
      (([], Some (ERR_TOO_BIG
                    ("DAG too big: "
                     ++ match bytesTotal with Some n => fmt I n | None => "" end
                     ++ " > " ++ fmt I maxDagSize))),
       (start ++ asked ++ [sizeLine; ClearInterval])%list)
    else
      let stream := dagExport I cid in
      ((stream_chunks stream, option_map ExportFailed (stream_error stream)),
       (start ++ asked
        ++ [sizeLine; SetInterval REPORT_INTERVAL; DagExport cid BLOCK_TIMEOUT]
        ++ match stream_error stream with
           | None => [DebugLog "done"]
           | Some _ => []
           end
        ++ [ClearInterval])%list)
  end.

Definition isDagExport (ev : IpfsEvent) : bool :=
  match ev with DagExport _ _ => true | _ => false end.

Lemma getSize_no_export (I : IpfsEnv) (cid : CID) :
  existsb isDagExport (snd (getSize I cid)) = false.
Proof.
  unfold getSize. destruct (cid_code cid =? raw_code); [reflexivity|].
  destruct (cid_code cid =? pb_code); reflexivity.
Qed.

(** X29.  The size limit of the export: a DAG whose size is known and
    above [maxDagSize] (32 GiB when the option is not set, or set to 0)
    is not exported, the generator yields nothing and fails with
    ERR_TOO_BIG; in every run in which the export is asked for, the size
    was unknown or within the limit. *)
Theorem ipfsDagExport_size_limit (I : IpfsEnv) (cid : CID)
        (maxDagSizeOption : option Z) :
  let run := ipfsDagExport I cid maxDagSizeOption in
  (forall n,
      fst (getSize I cid) = Ok (Some n) ->
      n > effectiveMax maxDagSizeOption ->
      existsb isDagExport (snd run) = false
      /\ fst (fst run) = []
      /\ exists message, snd (fst run) = Some (ERR_TOO_BIG message))
  /\ (existsb isDagExport (snd run) = true ->
      fst (fst run) = stream_chunks (dagExport I cid)
      /\ (fst (getSize I cid) = Ok None
          \/ exists n, fst (getSize I cid) = Ok (Some n)
                       /\ n <= effectiveMax maxDagSizeOption)).
Proof.
  cbv zeta. unfold ipfsDagExport.
  pose proof (getSize_no_export I cid) as Hasked.
  destruct (getSize I cid) as [[bytesTotal|e] asked]; cbn [fst snd] in *.
  - destruct bytesTotal as [n|].
    + destruct (Z.gtb_spec n (effectiveMax maxDagSizeOption)) as [Hbig | Hfit].
      * split.
        -- intros n' Hn' _. cbn [fst snd].
           rewrite !existsb_app, Hasked. cbn. eauto.
        -- cbn [fst snd]. rewrite !existsb_app, Hasked. cbn. discriminate.
      * split.
        -- intros n' Hn' Hbig. inversion Hn'. subst n'. lia.
        -- intros _. cbn [fst snd]. split; [reflexivity|]. right.
           exists n. split; [reflexivity | lia].
    + split.
      * intros n Hn. discriminate Hn.
      * intros _. cbn [fst snd]. split; [reflexivity|]. now left.
  - split.
    + intros n Hn. discriminate Hn.
    + cbn [fst snd]. rewrite !existsb_app, Hasked. cbn. discriminate.
Qed.

(** A client with one oversize dag-pb object and one small raw block. *)
Definition sampleIpfs : IpfsEnv :=
  mkIpfsEnv (fun _ => Ok (zeros 5))
            (fun _ => Ok (MAX_DAG_SIZE + 1))
            (fun _ => sampleBody)
            showZ.

Lemma ipfsDagExport_size_limit_witness :
  (existsb isDagExport (snd (ipfsDagExport sampleIpfs sampleRoot None)) = false
   /\ fst (fst (ipfsDagExport sampleIpfs sampleRoot None)) = []
   /\ exists message,
        snd (fst (ipfsDagExport sampleIpfs sampleRoot None))
        = Some (ERR_TOO_BIG message))
  /\ fst (fst (ipfsDagExport sampleIpfs (sampleCid raw_code x07) (Some 0)))
     = stream_chunks sampleBody.
Proof.
  split.
  - apply (proj1 (ipfsDagExport_size_limit sampleIpfs sampleRoot None)
                 (MAX_DAG_SIZE + 1)).
    + reflexivity.
    + vm_compute. reflexivity.
  - apply (proj2 (ipfsDagExport_size_limit sampleIpfs
                    (sampleCid raw_code x07) (Some 0))).
    vm_compute. reflexivity.
Defined.

(** A row of the query for pinned requests without a backup: the
    columns [getPinsNotBackedUp] reads. *)
Record PinRow : Type := mkPinRow {
  row_source_cid : string;
  row_content_cid : string;
  row_user_id : Z;
  row_id : Z;
  row_url : JsVal
}.

(** A candidate for backup as the generator yields it. *)
Record BackupCandidate : Type := mkCandidate {
  cand_sourceCid : CID;
  cand_contentCid : CID;
  cand_userId : string;
  cand_uploadId : string
}.

(** [process.env.QUERY_LIMIT ?? 10000] with the variable unset. *)
Definition LIMIT : Z := 10000.

Section Candidates.

Variable L : Multiformats.
(** [db.query(GET_PINNED_PINS_QUERY, [LIMIT])]: the rows, or the error
    the query is rejected with. *)
Variable queryPinned : Z -> Res (list PinRow).

(** The [for] loop over the uploads: the candidates yielded, and the
    error of [CID.parse] that ends the generator early, if any. *)
Fixpoint yieldCandidates (uploads : list PinRow)
  : list BackupCandidate * option Exn :=
  match uploads with
  | [] => ([], None)
  | upload :: rest =>
    match CID_parse L (row_source_cid upload) with
    | Throw e => ([], Some e)
    | Ok sourceCid =>
      match CID_parse L (row_content_cid upload) with
      | Throw e => ([], Some e)
      | Ok contentCid =>
        let pin := mkCandidate sourceCid contentCid
                     (showZ (row_user_id upload)) (showZ (row_id upload)) in
        let (more, ending) := yieldCandidates rest in
        (pin :: more, ending)
      end
    end
  end.

Definition getPinsNotBackedUp : list BackupCandidate * option Exn :=
  match queryPinned LIMIT with
  | Throw e => ([], Some e)
  | Ok rows =>
    if Z.of_nat (List.length rows) =? 0 then ([], None)
    else yieldCandidates (filter (fun r => negb (truthy (row_url r))) rows)
  end.

End Candidates.

Definition withoutUrl (r : PinRow) : bool := negb (truthy (row_url r)).

Lemma yieldCandidates_prefix (L : Multiformats) (uploads : list PinRow) :
  exists rest,
    map (fun r => showZ (row_id r)) uploads
    = (map cand_uploadId (fst (yieldCandidates L uploads)) ++ rest)%list
    /\ (snd (yieldCandidates L uploads) = None -> rest = []).
Proof.
  induction uploads as [|u more [rest [IH1 IH2]]].
  - exists []. split; [reflexivity | auto].
  - cbn [yieldCandidates].
    destruct (CID_parse L (row_source_cid u));
      [|eexists; split; [reflexivity | discriminate]].
    destruct (CID_parse L (row_content_cid u));
      [|eexists; split; [reflexivity | discriminate]].
    destruct (yieldCandidates L more) as [ys ending]. cbn [fst snd] in *.
    exists rest. split; [|assumption].
    cbn [map app]. now rewrite IH1.
Qed.

(** X30.  The candidates for backup are rows of the query that have no
    URL, in the order of the query: the upload ids yielded are the ids of
    the first such rows, of all of them when every cid of these rows
    parses, and a row with a URL is never yielded. *)
Theorem getPinsNotBackedUp_candidates (L : Multiformats)
        (queryPinned : Z -> Res (list PinRow)) (rows : list PinRow) :
  queryPinned 10000 = Ok rows ->
  let run := getPinsNotBackedUp L queryPinned in
  exists rest,
    map (fun r => showZ (row_id r)) (filter withoutUrl rows)
    = (map cand_uploadId (fst run) ++ rest)%list
    /\ (snd run = None -> rest = []).
Proof.
  intros Hrows. cbv zeta. unfold getPinsNotBackedUp, LIMIT. rewrite Hrows.
  destruct rows as [|r rows'].
  - exists []. split; [reflexivity | auto].
  - replace (Z.of_nat (List.length (r :: rows')) =? 0) with false
      by (symmetry; apply Z.eqb_neq; simpl; lia).
    apply yieldCandidates_prefix.
Qed.

Definition sampleRows : list PinRow :=
  [mkPinRow "f01700001ab" "f01700001ab" 7 1 JNull;
   mkPinRow "f01700001cd" "f01700001cd" 7 2 (JStr "https://backup.example/2.car");
   mkPinRow "F01550001EF" "f01550001ef" 8 3 JUndefined].

Lemma getPinsNotBackedUp_candidates_witness :
  exists rest,
    map (fun r => showZ (row_id r)) (filter withoutUrl sampleRows)
    = (map cand_uploadId
         (fst (getPinsNotBackedUp hexLibrary (fun _ => Ok sampleRows)))
       ++ rest)%list
    /\ (snd (getPinsNotBackedUp hexLibrary (fun _ => Ok sampleRows)) = None ->
        rest = []).
Proof.
  apply (getPinsNotBackedUp_candidates hexLibrary (fun _ => Ok sampleRows)
           sampleRows).
  reflexivity.
Defined.
